(** * Tool invocation and resilience layer

    A shallow embedding of the tool registry ([tools.py]: [ToolParameter],
    [Tool], [ToolRegistry], [execute_tool_call]) and of the retry decorator
    ([utils/retry.py]: [retry], its blocking wrapper [sync_wrapper]), with the
    properties of the dispatch path and of the backoff loop.

    Further on: the asynchronous wrapper and the pre-configured decorators;
    the registry in registration order, as [list_tools] and
    [get_tool_descriptions] read it; and, of the tool bodies, [run_command],
    [port_scan], the line range of [read_file], the line count of
    [write_file] and the sizes of [list_files], each against the operating
    system and the libraries as parameters.

    Python exceptions are modelled by an error monad whose failures carry
    their class, so that [except Exception], [except json.JSONDecodeError] and
    [except exceptions] keep their filters.  Delays are exact rationals
    instead of floats. *)

From Stdlib Require Import ZArith QArith Qminmax Qpower Lia Lqa.
From stdpp Require Import base option list gmap strings pretty.

(** ** Python values, exceptions and outcomes *)

(** The classes of the failures a tool body, [json.loads] or a retried
    target raises.  They all derive from [Exception], as the annotations of
    both modules have it; [KeyboardInterrupt] and [SystemExit], which derive
    from [BaseException] alone, are requests to stop the process and are not
    modelled.  [UserClass] is a class declared by the program
    ([class KlixError(Exception)] and the like). *)
Inductive exc_class : Type :=
  | Exception
  | TypeError
  | ValueError
  | JSONDecodeError
  | OSError
  | ConnectionError
  | TimeoutError
  | RuntimeError
  | RecursionError
  | UserClass (name : string) (base : exc_class).

#[global] Instance exc_class_eq_dec : EqDecision exc_class.
Proof. solve_decision. Defined.

(** Method resolution order: the class followed by its ancestors. *)
Fixpoint mro (c : exc_class) : list exc_class :=
  match c with
  | Exception => [Exception]
  | TypeError => [TypeError; Exception]
  | ValueError => [ValueError; Exception]
  | JSONDecodeError => [JSONDecodeError; ValueError; Exception]
  | OSError => [OSError; Exception]
  | ConnectionError => [ConnectionError; OSError; Exception]
  | TimeoutError => [TimeoutError; OSError; Exception]
  | RuntimeError => [RuntimeError; Exception]
  | RecursionError => [RecursionError; RuntimeError; Exception]
  | UserClass n b => UserClass n b :: mro b
  end.

Definition issubclass (c d : exc_class) : bool := bool_decide (d ∈ mro c).

(** A raised exception: its class and [str(e)]. *)
Record exn : Type := Exn { exc_type : exc_class; exc_str : string }.

#[global] Instance exn_eq_dec : EqDecision exn.
Proof. solve_decision. Defined.

(** [isinstance(e, classes)] for a tuple of classes: what an [except]
    clause tests. *)
Definition isinstance (e : exn) (classes : list exc_class) : bool :=
  existsb (issubclass (exc_type e)) classes.
Arguments isinstance : simpl never.

(** The outcome of a call: a value, or an exception on its way up. *)
Inductive result (A : Type) : Type :=
  | Returned (a : A)
  | Raised (e : exn).
Arguments Returned {A} a.
Arguments Raised {A} e.

(** The values a tool-call request carries and [json.loads] produces. *)
#[warnings="-register-all"]
Inductive pyvalue : Type :=
  | PyNone
  | PyBool (b : bool)
  | PyInt (z : Z)
  | PyFloat (q : Q)
  | PyStr (s : string)
  | PyList (l : list pyvalue)
  | PyDict (d : list (string * pyvalue)).

(** [sub in s] on strings. *)
Fixpoint contains (sub s : string) : bool :=
  String.prefix sub s ||
  match s with
  | EmptyString => false
  | String _ s' => contains sub s'
  end.

Definition type_name (v : pyvalue) : string :=
  match v with
  | PyNone => "NoneType"
  | PyBool _ => "bool"
  | PyInt _ => "int"
  | PyFloat _ => "float"
  | PyStr _ => "str"
  | PyList _ => "list"
  | PyDict _ => "dict"
  end.

(** Keyword arguments, in the order of the dict they come from. *)
Abbreviation kwargs := (list (string * pyvalue)).

(** ** tools.py: the data model *)

Module Tools.

Record ToolParameter : Type := {
  param_name : string;
  param_type : string;
  param_description : string;
  param_required : bool;
  param_default : pyvalue
}.

(** A tool body is an external collaborator: from keyword arguments to a
    string, or to a raised exception (a signature mismatch raises
    [TypeError] there too). *)
Record Tool : Type := {
  tool_name : string;
  tool_description : string;
  tool_function : kwargs → result string;
  tool_parameters : list ToolParameter
}.

(** One entry of [properties] in the exported schema. *)
Record property : Type := Property {
  prop_type : string;
  prop_description : string
}.

Record json_schema : Type := {
  schema_type : string;
  schema_properties : gmap string property;
  schema_required : list string
}.

(** The body of the [for param in self.parameters] loop of
    [Tool.to_json_schema]: [properties[param.name] = {...}] and, for a
    required parameter, [required.append(param.name)]. *)
Definition schema_step (acc : gmap string property * list string)
    (param : ToolParameter) : gmap string property * list string :=
  let properties :=
    <[param_name param :=
        Property (param_type param) (param_description param)]> (acc.1) in
  let required :=
    if param_required param then acc.2 ++ [param_name param] else acc.2 in
  (properties, required).

(** The entry that the loop stores for a parameter. *)
Definition property_of (param : ToolParameter) : property :=
  Property (param_type param) (param_description param).

(** The same descriptor with other default values. *)
Definition with_defaults (defaults : ToolParameter → pyvalue) (self : Tool)
    : Tool :=
  {| tool_name := tool_name self;
     tool_description := tool_description self;
     tool_function := tool_function self;
     tool_parameters :=
       (λ p, {| param_name := param_name p;
                param_type := param_type p;
                param_description := param_description p;
                param_required := param_required p;
                param_default := defaults p |}) <$> tool_parameters self |}.

Definition to_json_schema (self : Tool) : json_schema :=
  let '(properties, required) :=
    foldl schema_step (∅, []) (tool_parameters self) in
  {| schema_type := "object";
     schema_properties := properties;
     schema_required := required |}.

(** [Tool.execute]: the function applied to the keyword arguments. *)
Definition Tool_execute (self : Tool) (kw : kwargs) : result string :=
  tool_function self kw.

(** ** tools.py: the registry and the dispatch path *)

(** What a run leaves behind: the logger's records and, as a ghost record,
    each entry into a tool body. *)
Inductive event : Type :=
  | DebugExecuting (name : string) (arg_names : list string)
  | WarningNotFound (name : string)
  | ToolInvoked (name : string) (kw : kwargs)
  | DebugCompleted (name : string)
  | ErrorFailed (name : string) (e : exn).

(** The process-wide state: the singleton registry's [_tools] dict and the
    trace so far. *)
Record world : Type := World {
  _tools : gmap string Tool;
  trace : list event
}.

(** State and exceptions: a raised exception keeps the state reached. *)
Definition M (A : Type) : Type := world → result A * world.

#[global] Instance M_ret : MRet M := λ A a w, (Returned a, w).
#[global] Instance M_bind : MBind M := λ A B k m w,
  match m w with
  | (Returned a, w') => k a w'
  | (Raised e, w') => (Raised e, w')
  end.

Definition raise {A} (e : exn) : M A := λ w, (Raised e, w).
Definition emit (ev : event) : M unit :=
  λ w, (Returned tt, World (_tools w) (trace w ++ [ev])).

(** [ToolRegistry.register(name, description, parameters)(func)]: the
    decorator stores the descriptor under [name] and hands back a wrapper
    that calls [func]. *)
Definition register (name description : string)
    (parameters : option (list ToolParameter))
    (func : kwargs → result string) : M (kwargs → result string) :=
  λ w,
    let tool := {| tool_name := name;
                   tool_description := description;
                   tool_function := func;
                   tool_parameters := default [] parameters |} in
    (Returned func, World (<[name := tool]> (_tools w)) (trace w)).

(** [ToolRegistry.get]: [self._tools.get(name)]. *)
Definition get (name : string) : M (option Tool) :=
  λ w, (Returned (_tools w !! name), w).

(** [ToolRegistry.clear]. *)
Definition clear : M unit :=
  λ w, (Returned tt, World ∅ (trace w)).

(** [ToolRegistry.execute], called with a name and keyword arguments. *)
Definition execute (name : string) (kw : kwargs) : M string :=
  emit (DebugExecuting name (kw.*1));;
  tool ← get name;
  match tool with
  | None =>
      emit (WarningNotFound name);;
      mret ("Error: Tool '" +:+ name +:+ "' not found.")
  | Some tool =>
      emit (ToolInvoked name kw);;
      match Tool_execute tool kw with
      | Returned result =>
          emit (DebugCompleted name);;
          mret result
      | Raised e =>
          if isinstance e [Exception] then
            emit (ErrorFailed name e);;
            mret ("Error executing '" +:+ name +:+ "': " +:+ exc_str e)
          else raise e
      end
  end.

(** A tool-call request: a dict read with [.get] under the keys [name]
    (default: the empty string) and [arguments] (default: the empty dict);
    a missing key is [None] here. *)
Record tool_call : Type := ToolCall {
  tc_name : option string;
  tc_arguments : option pyvalue
}.

(** The names that [execute] binds itself, [self] and [name]. *)
Definition positional (k : string) : bool :=
  String.eqb k "self" || String.eqb k "name".

(** The call of [registry.execute] with [name] and the unpacked
    [arguments] binds the mapping against the signature of [execute]: a
    value that is not a mapping cannot be unpacked, and a key named after
    a positional parameter collides with it.  Both raise [TypeError] at the
    call site, before the body of [execute] is entered; the messages are
    the interpreter's. *)
Definition unpack_for_execute (arguments : pyvalue) : result kwargs :=
  match arguments with
  | PyDict d =>
      match List.find positional (d.*1) with
      | Some k =>
          Raised (Exn TypeError
            ("ToolRegistry.execute() got multiple values for argument '"
               +:+ k +:+ "'"))
      | None => Returned d
      end
  | v =>
      Raised (Exn TypeError
        ("tools.ToolRegistry.execute() argument after ** must be a mapping, not "
           +:+ type_name v))
  end.

Section Dispatch.
(** [json.loads], of the standard library: the parsed value, or the
    exception it raises ([json.JSONDecodeError] on a malformed
    document). *)
Variable json_loads : string → result pyvalue.

Definition execute_tool_call (tc : tool_call) : M string :=
  let name := default "" (tc_name tc) in
  let arguments := default (PyDict []) (tc_arguments tc) in
  let call (arguments : pyvalue) : M string :=
    match unpack_for_execute arguments with
    | Returned kw => execute name kw
    | Raised e => raise e
    end in
  match arguments with
  | PyStr s =>
      match json_loads s with
      | Returned arguments => call arguments
      | Raised e =>
          if isinstance e [JSONDecodeError] then
            mret ("Error: Invalid JSON arguments for tool '" +:+ name +:+ "'")
          else raise e
      end
  | _ => call arguments
  end.

(** The arguments that reach [execute]: a mapping, or a string that
    [json.loads] rejects or turns into a mapping, with no key named after
    a positional parameter of [execute]. *)
Definition well_formed_arguments (arguments : pyvalue) : Prop :=
  let accepted (d : kwargs) := ("self" ∉ d.*1) ∧ ("name" ∉ d.*1) in
  match arguments with
  | PyDict d => accepted d
  | PyStr s =>
      match json_loads s with
      | Returned (PyDict d) => accepted d
      | Returned _ => False
      | Raised e => isinstance e [JSONDecodeError] = true
      end
  | _ => False
  end.
End Dispatch.

End Tools.

(** ** utils/retry.py: the retry decorator *)

Module Retry.

(** What one call of the wrapper does, in order: each entry into the target
    (with the exception it raised, if any), the logger's records, the
    callback's calls and the sleeps. *)
Inductive event : Type :=
  | Called (attempt : Z) (failure : option exn)
  | LogError (attempt : Z) (e : exn)
  | LogWarning (attempt : Z) (delay : Q) (e : exn)
  | OnRetry (e : exn) (attempt : Z)
  | Slept (delay : Q).

(** The state a run threads: the state [U] that the target and the
    callback share (the closures' variables, the outside world), and the
    number of values drawn from the random generator. *)
Record state (U : Type) : Type := State { user : U; draws : nat }.
Arguments State {U} user draws.
Arguments user {U} s.
Arguments draws {U} s.

(** The arguments of [retry]. *)
Record retry_args (U : Type) : Type := {
  max_attempts : Z;
  base_delay : Q;
  max_delay : Q;
  exponential_base : Q;
  jitter : bool;
  exceptions : list exc_class;
  on_retry : option (exn → Z → U → U)
}.
Arguments max_attempts {U} r.
Arguments base_delay {U} r.
Arguments max_delay {U} r.
Arguments exponential_base {U} r.
Arguments jitter {U} r.
Arguments exceptions {U} r.
Arguments on_retry {U} r.

(** [range(start, stop)]. *)
Definition range (start stop : Z) : list Z := seqZ start (stop - start).

Section retry.
Context {U A : Type}.
Variable args : retry_args U.
(** [random.random()]: the value of the [n]-th draw. *)
Variable random : nat → Q.
(** The decorated function, applied to the arguments of the call. *)
Variable func : U → result A * U.

(** The [for attempt in ...] loop of [sync_wrapper] and the two
    statements after it.  [time.sleep] refuses a negative length with
    [ValueError]. *)
Fixpoint attempts_loop (attempts : list Z) (last_exception : option exn)
    (st : state U) : result (option A) * state U * list event :=
  match attempts with
  | [] =>
      match last_exception with
      | Some e => (Raised e, st, [])
      | None => (Returned None, st, [])
      end
  | attempt :: rest =>
      let '(r, u) := func (user st) in
      let st := State u (draws st) in
      match r with
      | Returned v => (Returned (Some v), st, [Called attempt None])
      | Raised e =>
          if isinstance e (exceptions args) then
            if (attempt =? max_attempts args)%Z then
              (Raised e, st, [Called attempt (Some e); LogError attempt e])
            else
              let delay :=
                Qmin (base_delay args * exponential_base args ^ (attempt - 1))
                     (max_delay args) in
              let '(delay, st) :=
                if jitter args
                then ((delay * ((1 # 2) + random (draws st)))%Q,
                      State (user st) (S (draws st)))
                else (delay, st) in
              let '(st, called_back) :=
                match on_retry args with
                | Some callback =>
                    (State (callback e attempt (user st)) (draws st),
                     [OnRetry e attempt])
                | None => (st, [])
                end in
              let before :=
                Called attempt (Some e) :: LogWarning attempt delay e
                  :: called_back in
              if Qle_bool 0 delay then
                let '(r', st', after) := attempts_loop rest (Some e) st in
                (r', st', before ++ Slept delay :: after)
              else
                (Raised (Exn ValueError "sleep length must be non-negative"),
                 st, before)
          else (Raised e, st, [Called attempt (Some e)])
      end
  end.

Definition sync_wrapper (st : state U)
    : result (option A) * state U * list event :=
  attempts_loop (range 1 (max_attempts args + 1)) None st.
End retry.

(** The entries into the target, in order, and their number. *)
Definition calls (evs : list event) : list (Z * option exn) :=
  omap (λ ev, match ev with Called k f => Some (k, f) | _ => None end) evs.

Definition call_count (evs : list event) : nat := length (calls evs).

(** The sleeps of a run, in order. *)
Definition sleeps (evs : list event) : list Q :=
  omap (λ ev, match ev with Slept d => Some d | _ => None end) evs.

(** The domain of the arguments as documented: at least one attempt, a
    base delay that is not negative, a cap no smaller than it, a growth
    factor above one. *)
Definition documented_domain {U} (args : retry_args U) : Prop :=
  (1 ≤ max_attempts args)%Z
  ∧ (0 <= base_delay args)%Q
  ∧ (base_delay args <= max_delay args)%Q
  ∧ (1 < exponential_base args)%Q.

(** What keeps every computed delay from being negative. *)
Definition nonneg_delays {U} (args : retry_args U) : Prop :=
  (0 <= base_delay args)%Q
  ∧ (0 <= exponential_base args)%Q
  ∧ (0 <= max_delay args)%Q.

(** [random.random()] draws from the half-open unit interval. *)
Definition unit_interval (random : nat → Q) : Prop :=
  ∀ n, (0 <= random n)%Q ∧ (random n < 1)%Q.

(** A target that raises a failure of a retried class on every call. *)
Definition always_fails {U A} (args : retry_args U)
    (func : U → result A * U) : Prop :=
  ∀ u, ∃ e u', func u = (Raised e, u') ∧ isinstance e (exceptions args) = true.

(** [RetryConfig] and its [decorator]. *)
Record RetryConfig : Type := {
  cfg_max_attempts : Z;
  cfg_base_delay : Q;
  cfg_max_delay : Q;
  cfg_exponential_base : Q;
  cfg_jitter : bool
}.

Definition RetryConfig_decorator {U} (self : RetryConfig)
    (exceptions : list exc_class) : retry_args U :=
  {| max_attempts := cfg_max_attempts self;
     base_delay := cfg_base_delay self;
     max_delay := cfg_max_delay self;
     exponential_base := cfg_exponential_base self;
     jitter := cfg_jitter self;
     exceptions := exceptions;
     on_retry := None |}.

(** The two pre-configured decorators. *)
Definition retry_api {U} : retry_args U :=
  {| max_attempts := 3; base_delay := 1; max_delay := 30;
     exponential_base := 2; jitter := true;
     exceptions := [Exception]; on_retry := None |}.

Definition retry_network {U} : retry_args U :=
  {| max_attempts := 5; base_delay := 1 # 2; max_delay := 60;
     exponential_base := 2; jitter := true;
     exceptions := [ConnectionError; TimeoutError; OSError];
     on_retry := None |}.

End Retry.

(** ** Sample tools, requests and retry arguments *)

Module Samples.
Import Tools.

(** The parameters of a directory-walking tool: an optional [path] and a
    required [recursive] flag. *)
Definition path_param : ToolParameter :=
  {| param_name := "path"; param_type := "string";
     param_description := "The directory path to list.";
     param_required := false; param_default := PyStr "." |}.

Definition recursive_param : ToolParameter :=
  {| param_name := "recursive"; param_type := "boolean";
     param_description := "Whether to descend into sub-directories.";
     param_required := true; param_default := PyBool false |}.

Definition ls_v1 (kw : kwargs) : result string := Returned "first".
Definition ls_v2 (kw : kwargs) : result string := Returned "second".

(** A body that fails on every call. *)
Definition boom (kw : kwargs) : result string :=
  Raised (Exn RuntimeError "disk on fire").

Definition walk : Tool :=
  {| tool_name := "walk"; tool_description := "Walk a directory tree.";
     tool_function := ls_v1;
     tool_parameters := [path_param; recursive_param] |}.

(** A descriptor that declares the name [path] twice. *)
Definition twice : Tool :=
  {| tool_name := "twice"; tool_description := "Declares a name twice.";
     tool_function := ls_v1;
     tool_parameters :=
       [path_param;
        {| param_name := "path"; param_type := "integer";
           param_description := "A depth."; param_required := true;
           param_default := PyNone |}] |}.

Definition empty_world : world := World ∅ [].

(** The registry after [ls] and [boom] registered themselves. *)
Definition started : world :=
  (register "boom" "Always fails." None boom
     (register "ls" "List files." (Some [path_param]) ls_v1 empty_world).2).2.

(** A stand-in for [json.loads] on three documents: an object, an
    array, and text that is no JSON at all. *)
Definition loads (s : string) : result pyvalue :=
  if String.eqb s "{}" then Returned (PyDict [])
  else if String.eqb s "[1]" then Returned (PyList [PyInt 1])
  else Raised (Exn JSONDecodeError "Expecting value").

Import Retry.

(** A target that counts its calls and fails on each of them. *)
Definition always_failing (calls : nat) : result string * nat :=
  (Raised (Exn ValueError "Persistent error"), S calls).

(** A target that raises [TypeError]. *)
Definition wrong_kind (calls : nat) : result string * nat :=
  (Raised (Exn TypeError "Not retried"), S calls).

Definition three_attempts : retry_args nat :=
  {| max_attempts := 3; base_delay := 1 # 100; max_delay := 60;
     exponential_base := 2; jitter := false;
     exceptions := [ValueError]; on_retry := None |}.

Definition three_attempts_jittered : retry_args nat :=
  {| max_attempts := 3; base_delay := 1 # 100; max_delay := 60;
     exponential_base := 2; jitter := true;
     exceptions := [ValueError]; on_retry := None |}.

Definition no_attempts : retry_args nat :=
  {| max_attempts := 0; base_delay := 1; max_delay := 60;
     exponential_base := 2; jitter := true;
     exceptions := [Exception]; on_retry := None |}.

(** Arguments outside the documented domain: a negative base delay. *)
Definition negative_base_delay : retry_args nat :=
  {| max_attempts := 3; base_delay := -1; max_delay := 60;
     exponential_base := 2; jitter := false;
     exceptions := [ValueError]; on_retry := None |}.

(** A generator that always draws one quarter. *)
Definition quarter (n : nat) : Q := 1 # 4.
End Samples.

(** ** utils/retry.py: the asynchronous wrapper and the decorator *)

Module RetryMore.
Import Retry.

(** What [time.sleep] raises on a negative length. *)
Definition sleep_error : exn :=
  Exn ValueError "sleep length must be non-negative".

(** The delay computed after a failed attempt, the generator having been
    drawn from [drawn] times: the expression of the handler, jitter
    included. *)
Definition delay_for {U} (args : retry_args U) (random : nat → Q)
    (attempt : Z) (drawn : nat) : Q :=
  let delay :=
    Qmin (base_delay args * exponential_base args ^ (attempt - 1))
         (max_delay args) in
  if jitter args then (delay * ((1 # 2) + random drawn))%Q else delay.

(** The calls of the callback, in order. *)
Definition callbacks (evs : list event) : list (exn * Z) :=
  omap (λ ev, match ev with OnRetry e k => Some (e, k) | _ => None end) evs.

(** The time slept in all. *)
Definition total (delays : list Q) : Q := foldr Qplus 0%Q delays.

Section retry_async.
Context {U A : Type}.
Variable args : retry_args U.
Variable random : nat → Q.
(** What the other tasks of the event loop do to the shared state while
    the wrapper is suspended in [asyncio.sleep] for a given time. *)
Variable others : Q → U → U.
(** The decorated coroutine function, awaited to completion. *)
Variable func : U → result A * U.

(** The loop of [async_wrapper] and the two statements after it: the
    loop of [sync_wrapper] with [await asyncio.sleep(delay)] for
    [time.sleep(delay)].  [asyncio.sleep] takes a negative delay for an
    immediate return after one pass through the event loop. *)
Fixpoint attempts_loop_async (attempts : list Z) (last_exception : option exn)
    (st : state U) : result (option A) * state U * list event :=
  match attempts with
  | [] =>
      match last_exception with
      | Some e => (Raised e, st, [])
      | None => (Returned None, st, [])
      end
  | attempt :: rest =>
      let '(r, u) := func (user st) in
      let st := State u (draws st) in
      match r with
      | Returned v => (Returned (Some v), st, [Called attempt None])
      | Raised e =>
          if isinstance e (exceptions args) then
            if (attempt =? max_attempts args)%Z then
              (Raised e, st, [Called attempt (Some e); LogError attempt e])
            else
              let delay :=
                Qmin (base_delay args * exponential_base args ^ (attempt - 1))
                     (max_delay args) in
              let '(delay, st) :=
                if jitter args
                then ((delay * ((1 # 2) + random (draws st)))%Q,
                      State (user st) (S (draws st)))
                else (delay, st) in
              let '(st, called_back) :=
                match on_retry args with
                | Some callback =>
                    (State (callback e attempt (user st)) (draws st),
                     [OnRetry e attempt])
                | None => (st, [])
                end in
              let before :=
                Called attempt (Some e) :: LogWarning attempt delay e
                  :: called_back in
              let st := State (others delay (user st)) (draws st) in
              let '(r', st', after) :=
                attempts_loop_async rest (Some e) st in
              (r', st', before ++ Slept delay :: after)
          else (Raised e, st, [Called attempt (Some e)])
      end
  end.

Definition async_wrapper (st : state U)
    : result (option A) * state U * list event :=
  attempts_loop_async (range 1 (max_attempts args + 1)) None st.
End retry_async.

(** What [retry(...)] decorates, as [asyncio.iscoroutinefunction] tells
    the two apart. *)
Inductive callable (U A : Type) : Type :=
  | Function (func : U → result A * U)
  | CoroutineFunction (func : U → result A * U).
Arguments Function {U A} func.
Arguments CoroutineFunction {U A} func.

(** [decorator]: the wrapper that matches the calling convention. *)
Definition decorator {U A} (args : retry_args U) (random : nat → Q)
    (others : Q → U → U) (func : callable U A) (st : state U)
    : result (option A) * state U * list event :=
  match func with
  | CoroutineFunction func => async_wrapper args random others func st
  | Function func => sync_wrapper args random func st
  end.

End RetryMore.

(** ** More sample targets and retry arguments *)

Module Scenarios.
Import Retry RetryMore.

(** A target that fails on its first two calls and returns on the
    third. *)
Definition flaky (calls : nat) : result string * nat :=
  if (calls <? 2)%nat
  then (Raised (Exn ValueError "Temporary error"), S calls)
  else (Returned "success", S calls).

(** Three attempts with a callback that leaves the state alone. *)
Definition with_callback : retry_args nat :=
  {| max_attempts := 3; base_delay := 1 # 100; max_delay := 60;
     exponential_base := 2; jitter := false;
     exceptions := [ValueError]; on_retry := Some (λ _ _ u, u) |}.

(** An event loop with no other task. *)
Definition idle (delay : Q) (u : nat) : nat := u.
End Scenarios.

(** ** The operations on [str] and on lists that the tool bodies use *)

Module Str.

(** The line feed, as a character and as a string. *)
Definition LF : Ascii.ascii :=
  Ascii.Ascii false true false true false false false false.
Definition newline : string := String LF "".

(** [bool(s)]: a string is true when it is not empty. *)
Definition truthy (s : string) : bool :=
  match s with
  | EmptyString => false
  | String _ _ => true
  end.

(** [sep.join(parts)]. *)
Fixpoint join (sep : string) (parts : list string) : string :=
  match parts with
  | [] => ""
  | [part] => part
  | part :: parts => part +:+ sep +:+ join sep parts
  end.

(** [s.count(c)] for a needle of one character. *)
Fixpoint count (c : Ascii.ascii) (s : string) : Z :=
  match s with
  | EmptyString => 0
  | String c' s' => (if Ascii.eqb c' c then 1 else 0) + count c s'
  end.

(** [s.endswith(c)] for a suffix of one character. *)
Fixpoint endswith (c : Ascii.ascii) (s : string) : bool :=
  match s with
  | EmptyString => false
  | String c' EmptyString => Ascii.eqb c' c
  | String _ s' => endswith c s'
  end.

(** The bounds of [l[start:stop]] (step one) for a sequence of [len]
    items: an index below zero counts from the end, and both ends are
    clipped to the sequence. *)
Definition slice_index (len i : Z) : Z :=
  if (i <? 0)%Z then Z.max (i + len) 0 else Z.min i len.

Definition slice {A : Type} (l : list A) (start stop : Z) : list A :=
  let len := Z.of_nat (length l) in
  let start := slice_index len start in
  let stop := slice_index len stop in
  take (Z.to_nat (stop - start)) (drop (Z.to_nat start) l).

(** [enumerate(l, start)]. *)
Definition enumerate {A : Type} (l : list A) (start : Z) : list (Z * A) :=
  zip (seqZ start (Z.of_nat (length l))) l.

(** [format(i, "4d")]: the decimal digits, with a sign when negative,
    moved to the right of a field of four by blanks. *)
Definition format_4d (i : Z) : string :=
  let digits := pretty i in
  join "" (replicate (4 - String.length digits) " ") +:+ digits.

End Str.

Module Listing.
Import Tools Str.

(** [self._tools] as Python keeps it: a dict holds its entries in the
    order in which their keys were first assigned, which is what
    [list_tools] and [get_tool_descriptions] see.  [Tools.world] holds the
    same dict as a finite map, which is all that [get] sees. *)
Definition registry : Type := list (string * Tool).

(** [d[k] = v]: a key that is present keeps its place and takes the new
    value, a new key goes to the end. *)
Fixpoint setitem {A : Type} (k : string) (v : A) (d : list (string * A))
    : list (string * A) :=
  match d with
  | [] => [(k, v)]
  | (k', v') :: d' =>
      if String.eqb k k' then (k', v) :: d' else (k', v') :: setitem k v d'
  end.

(** [ToolRegistry.register(name, description, parameters)(func)]. *)
Definition register (name description : string)
    (parameters : option (list ToolParameter))
    (func : kwargs → result string) (r : registry)
    : (kwargs → result string) * registry :=
  let tool := {| tool_name := name;
                 tool_description := description;
                 tool_function := func;
                 tool_parameters := default [] parameters |} in
  (func, setitem name tool r).

(** [ToolRegistry.get]: [self._tools.get(name)]. *)
Definition get (name : string) (r : registry) : option Tool :=
  snd <$> List.find (λ kv, String.eqb name kv.1) r.

(** [ToolRegistry.list_tools]: [list(self._tools.values())]. *)
Definition list_tools (r : registry) : list Tool := r.*2.

(** [ToolRegistry.clear]. *)
Definition clear (r : registry) : unit * registry := (tt, []).

(** The statements that write the registry: a decorated definition
    ([tool(...)] hands over to [registry.register]) and [clear]. *)
Inductive statement : Type :=
  | Decorated (name description : string)
      (parameters : option (list ToolParameter))
      (func : kwargs → result string)
  | Cleared.

(** [tool(name, description, parameters)]: the shorthand for
    [registry.register]. *)
Definition tool := register.

Definition run (r : registry) (s : statement) : registry :=
  match s with
  | Decorated name description parameters func =>
      (tool name description parameters func r).2
  | Cleared => (clear r).2
  end.

(** The same statements on the finite map of [Tools.world]. *)
Definition run_world (w : world) (s : statement) : world :=
  match s with
  | Decorated name description parameters func =>
      (Tools.register name description parameters func w).2
  | Cleared => (Tools.clear w).2
  end.

(** The line of a tool and the lines of its parameters, followed by an
    empty line: the body of the outer loop of [get_tool_descriptions]. *)
Definition describe (lines : list string) (tool : Tool) : list string :=
  let lines :=
    lines ++ ["‚Ä¢ **" +:+ tool_name tool +:+ "**: "
                +:+ tool_description tool] in
  let lines :=
    foldl (λ lines param,
             let req := if param_required param then " (required)" else "" in
             lines ++ ["  - `" +:+ param_name param +:+ "` ("
                         +:+ param_type param +:+ ")" +:+ req +:+ ": "
                         +:+ param_description param])
          lines (tool_parameters tool) in
  lines ++ [""].

Definition get_tool_descriptions (r : registry) : string :=
  let tools := list_tools r in
  let lines := ["Available tools:" +:+ newline] in
  let lines := foldl describe lines tools in
  join newline lines.

End Listing.

(** ** tools.py: the bodies of the tools *)

Module Bodies.
Import Str.

(** What [subprocess.run] hands back under [capture_output] and
    [text]. *)
Record CompletedProcess : Type := {
  stdout : string;
  stderr : string;
  returncode : Z
}.

(** [subprocess.TimeoutExpired], a [SubprocessError]. *)
Definition SubprocessError : exc_class := UserClass "SubprocessError" Exception.
Definition TimeoutExpired : exc_class :=
  UserClass "TimeoutExpired" SubprocessError.

(** The part of the configuration that the tools read. *)
Record Config (Path : Type) : Type := { project_root : Path }.
Arguments project_root {Path} c.

Section run_command.
(** [pathlib.Path]: the constructor from a string, [is_absolute] and the
    [/] operator. *)
Variable Path : Type.
Variable Path_ : string → Path.
Variable is_absolute : Path → bool.
Variable joinpath : Path → Path → Path.
(** [get_config()], of the configuration module. *)
Variable get_config : result (Config Path).
(** [subprocess.run(command, shell=True, cwd=..., capture_output=True,
    text=True, timeout=...)]: the completed process, or the exception
    raised ([TimeoutExpired] when the time is up). *)
Variable subprocess_run : string → Path → Z → result CompletedProcess.

(** The working directory: [cwd] when it is given and not empty, else
    the project root; a relative one is taken from the project root. *)
Definition working_dir (config : Config Path) (cwd : option string) : Path :=
  let working_dir :=
    match cwd with
    | Some cwd => if truthy cwd then Path_ cwd else project_root config
    | None => project_root config
    end in
  if is_absolute working_dir then working_dir
  else joinpath (project_root config) working_dir.

Definition run_command (command : string) (cwd : option string)
    (timeout : Z) : result string :=
  let attempt : result string :=
    match get_config with
    | Raised e => Raised e
    | Returned config =>
        match subprocess_run command (working_dir config cwd) timeout with
        | Raised e => Raised e
        | Returned result =>
            let output_parts := [] in
            let output_parts :=
              if truthy (stdout result)
              then output_parts ++ ["STDOUT:" +:+ newline +:+ stdout result]
              else output_parts in
            let output_parts :=
              if truthy (stderr result)
              then output_parts ++ ["STDERR:" +:+ newline +:+ stderr result]
              else output_parts in
            let output_parts :=
              if negb (returncode result =? 0)%Z
              then output_parts
                     ++ ["Exit code: " +:+ pretty (returncode result)]
              else output_parts in
            match output_parts with
            | [] => Returned "Command executed successfully (no output)."
            | _ => Returned (join (newline +:+ newline) output_parts)
            end
        end
    end in
  match attempt with
  | Returned answer => Returned answer
  | Raised e =>
      if isinstance e [TimeoutExpired] then
        Returned ("Error: Command timed out after " +:+ pretty timeout
                    +:+ " seconds.")
      else if isinstance e [Exception] then
        Returned ("Error executing command: " +:+ exc_str e)
      else Raised e
  end.
End run_command.

Section read_file.
(** [str.rstrip], without arguments. *)
Variable rstrip : string → string.

(** The block of [read_file] that applies a line range: the window of
    [lines] (the file cut by [splitlines], line ends kept) from
    [start_line] to [end_line], each line behind its number.  [None] and
    [0] both count as not given. *)
Definition numbered_lines (lines : list string) (start_line end_line : option Z)
    : list string :=
  let len := Z.of_nat (length lines) in
  let start_idx :=
    match start_line with
    | Some start_line => if (start_line =? 0)%Z then 0 else start_line - 1
    | None => 0
    end%Z in
  let end_idx :=
    match end_line with
    | Some end_line => if (end_line =? 0)%Z then len else end_line
    | None => len
    end in
  let start_idx := if (start_idx <? 0)%Z then 0%Z else start_idx in
  let end_idx := if (end_idx >? len)%Z then len else end_idx in
  let lines := slice lines start_idx end_idx in
  foldl (λ numbered_lines '(i, line),
           numbered_lines ++ [format_4d i +:+ " | " +:+ rstrip line])
        [] (enumerate lines (start_idx + 1)).
End read_file.

(** The number of lines that [write_file] reports. *)
Definition line_count (content : string) : Z :=
  (count LF content
   + (if truthy content && negb (endswith LF content) then 1 else 0))%Z.

(** The value of [size] that [list_files] shows behind the name of a
    file of [size_bytes] bytes. *)
Definition size_suffix (size_bytes : Z) : string :=
  if (size_bytes <? 1024)%Z then
    " (" +:+ pretty size_bytes +:+ "B)"
  else if (size_bytes <? 1024 * 1024)%Z then
    " (" +:+ pretty (size_bytes / 1024)%Z +:+ "KB)"
  else
    " (" +:+ pretty (size_bytes / (1024 * 1024))%Z +:+ "MB)".

End Bodies.

(** ** tools.py: the port scan *)

Module Scan.
Import Str.

(** [socket.gaierror], an [OSError]. *)
Definition gaierror : exc_class := UserClass "gaierror" OSError.

(** [s.split(c)] for a separator of one character. *)
Fixpoint split (c : Ascii.ascii) (s : string) : list string :=
  match s with
  | EmptyString => [""]
  | String x s' =>
      if Ascii.eqb x c then "" :: split c s'
      else
        match split c s' with
        | piece :: pieces => String x piece :: pieces
        | [] => [String x ""]
        end
  end.

(** The comma. *)
Definition comma : Ascii.ascii :=
  Ascii.Ascii false false true true false true false false.

(** An attempt to connect, as a ghost record: the address, the port and
    the timeout of the socket. *)
Record connection : Type := Connection {
  conn_ip : string;
  conn_port : Z;
  conn_timeout : Z
}.

(** The ports scanned when none are given. *)
Definition common_ports : list Z :=
  [21; 22; 23; 25; 53; 80; 110; 143; 443; 445; 993; 995; 3306; 3389; 5432;
   8080; 8443]%Z.

Section port_scan.
(** [str.strip] and [int], applied to a string. *)
Variable strip : string → string.
Variable int_ : string → result Z.
(** [socket.gethostbyname]. *)
Variable gethostbyname : string → result string.
(** The four socket calls of one attempt: [socket.socket],
    [settimeout], [connect_ex] on the address and the port, [close]; the
    result of [connect_ex], or the exception that one of them raised. *)
Variable connect : string → Z → Z → result Z.
(** [socket.getservbyport]. *)
Variable getservbyport : Z → result string.

(** [[int(p.strip()) for p in pieces if p.strip()]]. *)
Fixpoint port_numbers (pieces : list string) : result (list Z) :=
  match pieces with
  | [] => Returned []
  | p :: pieces =>
      if truthy (strip p) then
        match int_ (strip p) with
        | Returned port =>
            match port_numbers pieces with
            | Returned ports => Returned (port :: ports)
            | Raised e => Raised e
            end
        | Raised e => Raised e
        end
      else port_numbers pieces
  end.

(** The [for port in port_list] loop: the lines of the open ports, the
    closed ports and the attempts made, or the exception that left the
    loop. *)
Fixpoint scan (ip : string) (timeout : Z) (port_list : list Z)
    (open_ports : list string) (closed_ports : list Z)
    : result (list string * list Z) * list connection :=
  match port_list with
  | [] => (Returned (open_ports, closed_ports), [])
  | port :: port_list =>
      let attempt : result (list string * list Z) :=
        match connect ip port timeout with
        | Returned result =>
            if (result =? 0)%Z then
              let named :=
                match getservbyport port with
                | Returned service => Returned service
                | Raised e =>
                    if isinstance e [OSError] then Returned "unknown"
                    else Raised e
                end in
              match named with
              | Returned service =>
                  Returned
                    (open_ports
                       ++ ["  ‚úÖ Port " +:+ pretty port +:+ " ("
                             +:+ service +:+ "): OPEN"],
                     closed_ports)
              | Raised e => Raised e
              end
            else Returned (open_ports, closed_ports ++ [port])
        | Raised e => Raised e
        end in
      let handled : result (list string * list Z) :=
        match attempt with
        | Returned lists => Returned lists
        | Raised e =>
            if isinstance e [Exception]
            then Returned (open_ports, closed_ports ++ [port])
            else Raised e
        end in
      match handled with
      | Returned (open_ports, closed_ports) =>
          let '(r, made) :=
            scan ip timeout port_list open_ports closed_ports in
          (r, Connection ip port timeout :: made)
      | Raised e => (Raised e, [Connection ip port timeout])
      end
  end.

Definition port_scan (target ports : string) (timeout : Z)
    : result string * list connection :=
  let attempt : result string * list connection :=
    let port_list :=
      if negb (truthy ports) then
        Returned (inl common_ports)
      else
        match port_numbers (split comma ports) with
        | Returned port_list => Returned (inl port_list)
        | Raised e =>
            if isinstance e [ValueError] then
              Returned (inr "Error: Invalid port format. Use comma-separated numbers (e.g., '22,80,443').")
            else Raised e
        end in
    match port_list with
    | Raised e => (Raised e, [])
    | Returned (inr answer) => (Returned answer, [])
    | Returned (inl port_list) =>
        if (50 <? length port_list)%nat then
          (Returned "Error: Maximum 50 ports can be scanned at once.", [])
        else
          match gethostbyname target with
          | Raised e =>
              if isinstance e [gaierror] then
                (Returned ("Error: Cannot resolve hostname '" +:+ target
                             +:+ "'."), [])
              else (Raised e, [])
          | Returned ip =>
              let results :=
                ["Port scan results for " +:+ target +:+ " (" +:+ ip +:+ "):"
                   +:+ newline] in
              match scan ip timeout port_list [] [] with
              | (Raised e, made) => (Raised e, made)
              | (Returned (open_ports, closed_ports), made) =>
                  let results :=
                    match open_ports with
                    | _ :: _ => (results ++ ["**Open Ports:**"]) ++ open_ports
                    | [] => results ++ ["No open ports found."]
                    end in
                  let results :=
                    match closed_ports with
                    | _ :: _ =>
                        results
                          ++ [newline +:+ "**Closed/Filtered:** "
                                +:+ pretty (length closed_ports) +:+ " ports"]
                    | [] => results
                    end in
                  (Returned (join newline results), made)
              end
          end
    end in
  match attempt with
  | (Returned answer, made) => (Returned answer, made)
  | (Raised e, made) =>
      if isinstance e [Exception] then
        (Returned ("Error performing port scan: " +:+ exc_str e), made)
      else (Raised e, made)
  end.
End port_scan.

End Scan.

(** ** Sample registries, processes and files *)

Module Fixtures.
Import Tools Str Listing Bodies Scan.

(** The listing after [ls], [boom] and a second [ls] were defined. *)
Definition defined_twice : list statement :=
  [Decorated "ls" "List files." (Some [Samples.path_param]) Samples.ls_v1;
   Decorated "boom" "Always fails." None Samples.boom;
   Decorated "ls" "List files again." None Samples.ls_v2].

Definition shelf : registry := foldl run [] defined_twice.

Definition ls_tool : Tool :=
  {| tool_name := "ls"; tool_description := "List files again.";
     tool_function := Samples.ls_v2; tool_parameters := [] |}.

(** Paths as strings, absolute when they start with a slash. *)
Definition is_absolute (p : string) : bool := String.prefix "/" p.
Definition joinpath (a b : string) : string := a +:+ "/" +:+ b.

Definition config : Config string := {| project_root := "/srv/project" |}.

(** A subprocess that writes one line and fails with exit code 2. *)
Definition failing_process : CompletedProcess :=
  {| stdout := "building"; stderr := ""; returncode := 2 |}.

Definition subprocess_run (command : string) (cwd : string) (timeout : Z)
    : result CompletedProcess :=
  Returned failing_process.

(** [rstrip] on blanks and line feeds. *)
Fixpoint rstrip (s : string) : string :=
  match s with
  | EmptyString => ""
  | String c s' =>
      match rstrip s' with
      | EmptyString =>
          if Ascii.eqb c LF
             || Ascii.eqb c
                  (Ascii.Ascii false false false false false true false false)
          then "" else String c ""
      | rest => String c rest
      end
  end.

(** A file of three lines, cut by [splitlines] with the line ends
    kept. *)
Definition three_lines : list string :=
  ["alpha" +:+ newline; "beta" +:+ newline; "gamma" +:+ newline].

(** A stand-in for [int] on two port numbers. *)
Definition int_ (s : string) : result Z :=
  if String.eqb s "22" then Returned 22%Z
  else if String.eqb s "80" then Returned 80%Z
  else Raised (Exn ValueError "invalid literal for int() with base 10").

(** A host whose port 22 is open and whose other ports refuse the
    connection. *)
Definition gethostbyname (target : string) : result string :=
  Returned "192.0.2.7".

Definition connect (ip : string) (port timeout : Z) : result Z :=
  Returned (if (port =? 22)%Z then 0%Z else 111%Z).

Definition getservbyport (port : Z) : result string := Returned "ssh".

End Fixtures.

(** ** Properties of the exception model *)

Lemma Exception_in_mro (c : exc_class) : Exception ∈ mro c.
Proof.
  induction c; simpl; try (repeat constructor; fail).
  by apply list_elem_of_further.
Qed.

Lemma isinstance_Exception (e : exn) : isinstance e [Exception] = true.
Proof.
  unfold isinstance, issubclass. simpl.
  rewrite bool_decide_eq_true_2; [done | apply Exception_in_mro].
Qed.

Lemma prefix_append (a b : string) : String.prefix a (a +:+ b) = true.
Proof.
  induction a as [|c a IH]; simpl; [by destruct b |].
  destruct (Ascii.ascii_dec c c); [exact IH | done].
Qed.

Lemma contains_append (sub pre post : string) :
  contains sub (pre +:+ sub +:+ post) = true.
Proof.
  assert (Hunfold : ∀ s, contains sub s = String.prefix sub s ||
      match s with EmptyString => false | String _ s' => contains sub s' end)
    by (by intros []).
  induction pre as [|c pre IH].
  - change (contains sub (sub +:+ post) = true).
    by rewrite Hunfold, prefix_append.
  - change (contains sub (String c (pre +:+ sub +:+ post)) = true).
    rewrite Hunfold, IH. apply orb_true_r.
Qed.

Lemma contains_self (s : string) : contains s s = true.
Proof.
  assert (Hprefix : String.prefix s s = true).
  { induction s as [|c s IH]; simpl; [done |].
    by destruct (Ascii.ascii_dec c c). }
  destruct s; simpl in *; [done |]. by rewrite Hprefix.
Qed.

Lemma contains_append_right (sub a b : string) :
  contains sub b = true → contains sub (a +:+ b) = true.
Proof.
  intros Hb. induction a as [|c a IH]; [exact Hb |].
  change (contains sub (String c (a +:+ b)) = true).
  simpl. rewrite IH. apply orb_true_r.
Qed.

(** ** Properties of the schema export *)

Section SchemaProperties.
Import Tools.

Lemma foldl_schema_step_required (params : list ToolParameter)
    (acc : gmap string property * list string) :
  (foldl schema_step acc params).2
    = acc.2 ++ (param_name <$> List.filter param_required params).
Proof.
  revert acc. induction params as [|p params IH]; intros acc; simpl.
  - by rewrite app_nil_r.
  - rewrite IH. simpl. destruct (param_required p); [| done].
    by rewrite <- app_assoc.
Qed.

Lemma foldl_schema_step_properties (params : list ToolParameter)
    (acc : gmap string property * list string) (n : string) :
  (foldl schema_step acc params).1 !! n =
    match last (List.filter (λ p, String.eqb (param_name p) n) params) with
    | Some p => Some (property_of p)
    | None => acc.1 !! n
    end.
Proof.
  induction params as [|p params IH] using rev_ind; [done |].
  rewrite foldl_app, List.filter_app. simpl.
  destruct (String.eqb_spec (param_name p) n) as [-> | Hne].
  - by rewrite last_snoc, lookup_insert_eq.
  - by rewrite app_nil_r, lookup_insert_ne.
Qed.

Lemma last_filter_is_Some {X} (f : X → bool) (l : list X) :
  is_Some (last (List.filter f l)) ↔ ∃ x, x ∈ l ∧ f x = true.
Proof.
  rewrite last_is_Some. split.
  - destruct (List.filter f l) as [|x l'] eqn:Hfilter; [done |]. intros _.
    exists x. rewrite list_elem_of_In. apply filter_In.
    rewrite Hfilter. by left.
  - intros (x & Hin & Hx) Hnil.
    assert (Hx' : In x (List.filter f l))
      by (apply filter_In; by rewrite <- list_elem_of_In).
    by rewrite Hnil in Hx'.
Qed.

Lemma filter_by_absent_name (params : list ToolParameter) (n : string) :
  n ∉ param_name <$> params →
  List.filter (λ q, String.eqb (param_name q) n) params = [].
Proof.
  intros Habsent.
  destruct (List.filter _ params) as [|x l] eqn:Hfilter; [done |].
  assert (Hx : In x (List.filter (λ q, String.eqb (param_name q) n) params))
    by (rewrite Hfilter; by left).
  apply filter_In in Hx as [Hx Hname]. apply String.eqb_eq in Hname.
  destruct Habsent. rewrite <- Hname. apply list_elem_of_fmap.
  exists x. by rewrite list_elem_of_In.
Qed.

(** With distinct names, the parameters named like [p] are [p] alone. *)
Lemma filter_by_name_NoDup (params : list ToolParameter) (p : ToolParameter) :
  NoDup (param_name <$> params) → p ∈ params →
  List.filter (λ q, String.eqb (param_name q) (param_name p)) params = [p].
Proof.
  induction params as [|q params IH]; intros Hdup Hin; [by inversion Hin |].
  rewrite fmap_cons in Hdup. apply NoDup_cons in Hdup as [Hq Hdup]. simpl.
  apply elem_of_cons in Hin as [-> | Hin].
  - by rewrite String.eqb_refl, filter_by_absent_name.
  - destruct (String.eqb_spec (param_name q) (param_name p)) as [Heq | Hne].
    + destruct Hq. rewrite Heq. apply list_elem_of_fmap. by exists p.
    + by apply IH.
Qed.

Lemma to_json_schema_unfold (self : Tool) :
  to_json_schema self =
    {| schema_type := "object";
       schema_properties :=
         (foldl schema_step (∅, []) (tool_parameters self)).1;
       schema_required :=
         (foldl schema_step (∅, []) (tool_parameters self)).2 |}.
Proof.
  unfold to_json_schema. by destruct (foldl schema_step _ _).
Qed.

Lemma with_defaults_step (defaults : ToolParameter → pyvalue)
    (params : list ToolParameter) (acc : gmap string property * list string) :
  foldl schema_step acc
    ((λ p, {| param_name := param_name p;
              param_type := param_type p;
              param_description := param_description p;
              param_required := param_required p;
              param_default := defaults p |}) <$> params)
    = foldl schema_step acc params.
Proof.
  revert acc. induction params as [|p params IH]; intros acc; [done |].
  simpl. by rewrite <- IH.
Qed.

(** C9: the exported schema has type [object]; [required] lists, in
    parameter order, the names of the parameters whose [required] is true;
    [properties] holds an entry under a name exactly when a parameter has
    that name, and the entry carries the [type] and [description] of that
    parameter (of the last one, should a name be declared twice); with
    pairwise distinct names this is one entry per parameter.  Default
    values play no part in the export. *)
Theorem to_json_schema_export (self : Tool) :
  let schema := to_json_schema self in
  let params := tool_parameters self in
  schema_type schema = "object"
  ∧ schema_required schema
      = (param_name <$> List.filter param_required params)
  ∧ (∀ n, schema_properties schema !! n =
           property_of <$>
             last (List.filter (λ p, String.eqb (param_name p) n) params))
  ∧ dom (schema_properties schema)
      = (list_to_set (param_name <$> params) : gset string)
  ∧ (NoDup (param_name <$> params) →
       size (schema_properties schema) = length params
       ∧ ∀ p, p ∈ params →
           schema_properties schema !! param_name p = Some (property_of p))
  ∧ ∀ defaults, to_json_schema (with_defaults defaults self) = schema.
Proof.
  intros schema params. subst schema params.
  rewrite to_json_schema_unfold. simpl.
  set (params := tool_parameters self).
  assert (Hlookup : ∀ n,
            (foldl schema_step (∅, []) params).1 !! n =
              property_of <$>
                last (List.filter (λ p, String.eqb (param_name p) n) params)).
  { intros n. rewrite foldl_schema_step_properties. simpl.
    rewrite lookup_empty. by destruct (last _). }
  assert (Hdom : dom (foldl schema_step (∅, []) params).1
                 = (list_to_set (param_name <$> params) : gset string)).
  { apply set_eq. intros n.
    rewrite elem_of_dom, Hlookup, fmap_is_Some, last_filter_is_Some.
    rewrite elem_of_list_to_set, list_elem_of_fmap. split.
    - intros (p & Hin & Hname). apply String.eqb_eq in Hname. by exists p.
    - intros (p & -> & Hin). exists p. by rewrite String.eqb_refl. }
  split; [done |]. split; [apply foldl_schema_step_required |].
  split; [exact Hlookup |]. split; [exact Hdom |]. split.
  - intros Hdup. split.
    + by rewrite <- (size_dom (D:=gset string)), Hdom, size_list_to_set,
        length_fmap.
    + intros p Hin. by rewrite Hlookup, filter_by_name_NoDup.
  - intros defaults. rewrite to_json_schema_unfold. simpl.
    fold params. by rewrite with_defaults_step.
Qed.

(** A name declared twice keeps one entry, that of the later parameter,
    and is listed in [required] once per required parameter. *)
Example to_json_schema_repeated_name :
  schema_properties (to_json_schema Samples.twice)
    = {[ "path" := Property "integer" "A depth." ]}
  ∧ schema_required (to_json_schema Samples.twice) = ["path"].
Proof.
  rewrite to_json_schema_unfold. simpl. split; [| done].
  by rewrite insert_insert_eq, insert_empty.
Qed.

Lemma to_json_schema_export_witness :
  NoDup (param_name <$> tool_parameters Samples.walk)
  ∧ schema_required (to_json_schema Samples.walk) = ["recursive"]
  ∧ schema_properties (to_json_schema Samples.walk) !! "path"
      = Some (Property "string" "The directory path to list.")
  ∧ schema_properties (to_json_schema Samples.walk) !! "recursive"
      = Some (Property "boolean" "Whether to descend into sub-directories.")
  ∧ size (schema_properties (to_json_schema Samples.walk)) = 2%nat.
Proof.
  assert (Hdup : NoDup (param_name <$> tool_parameters Samples.walk)).
  { simpl. apply NoDup_cons. split; [| apply NoDup_singleton].
    rewrite list_elem_of_singleton. discriminate. }
  destruct (to_json_schema_export Samples.walk)
    as (_ & Hrequired & _ & _ & Hdistinct & _).
  destruct (Hdistinct Hdup) as [Hsize Hentries].
  split; [exact Hdup |]. split; [exact Hrequired |].
  split; [| split; [| exact Hsize]].
  - apply (Hentries Samples.path_param), list_elem_of_here.
  - apply (Hentries Samples.recursive_param), list_elem_of_further,
      list_elem_of_here.
Defined.
End SchemaProperties.

(** ** Properties of the registry and of the dispatch path *)

Section ToolsProperties.
Import Tools.

(** What [execute] does, branch by branch. *)
Lemma execute_unfold (name : string) (kw : kwargs) (w : world) :
  execute name kw w =
    let started := trace w ++ [DebugExecuting name (kw.*1)] in
    match _tools w !! name with
    | None =>
        (Returned ("Error: Tool '" +:+ name +:+ "' not found."),
         World (_tools w) (started ++ [WarningNotFound name]))
    | Some tool =>
        match Tool_execute tool kw with
        | Returned result =>
            (Returned result,
             World (_tools w)
               ((started ++ [ToolInvoked name kw]) ++ [DebugCompleted name]))
        | Raised e =>
            (Returned ("Error executing '" +:+ name +:+ "': " +:+ exc_str e),
             World (_tools w)
               ((started ++ [ToolInvoked name kw]) ++ [ErrorFailed name e]))
        end
    end.
Proof.
  unfold execute, mbind, M_bind, mret, M_ret, emit, get. simpl.
  destruct (_tools w !! name) as [tool|]; [| done].
  destruct (Tool_execute tool kw) as [result|e]; [done |].
  by rewrite isinstance_Exception.
Qed.

(** [execute] never writes the registry. *)
Lemma execute_keeps_tools (name : string) (kw : kwargs) (w : world) :
  _tools (execute name kw w).2 = _tools w.
Proof.
  rewrite execute_unfold. simpl.
  destruct (_tools w !! name) as [tool|]; [| done].
  by destruct (Tool_execute tool kw).
Qed.

(** [execute] always hands back a string. *)
Lemma execute_returns (name : string) (kw : kwargs) (w : world) :
  ∃ s, (execute name kw w).1 = Returned s.
Proof.
  rewrite execute_unfold. simpl.
  destruct (_tools w !! name) as [tool|]; [| by eexists].
  destruct (Tool_execute tool kw); by eexists.
Qed.

(** The result of [execute] depends on the registry alone, not on the
    trace. *)
Lemma execute_result_tools (name : string) (kw : kwargs) (w w' : world) :
  _tools w' = _tools w → (execute name kw w').1 = (execute name kw w).1.
Proof.
  intros Htools. rewrite !execute_unfold. simpl. rewrite Htools.
  destruct (_tools w !! name) as [tool|]; [| done].
  by destruct (Tool_execute tool kw).
Qed.

(** C2, as stated: the string for a missing tool is not the bare
    [Tool '<name>' not found.]; it starts with [Error: ]. *)
Lemma execute_not_found_bare_form_counterexample :
  (execute "nonexistent" [] Samples.empty_world).1
    ≠ Returned "Tool 'nonexistent' not found.".
Proof. rewrite execute_unfold. simpl. rewrite lookup_empty. discriminate. Qed.

(** C2, amended: for every name that the registry does not hold,
    [execute] returns, without raising and without entering any tool,
    exactly [Error: Tool '<name>' not found.], a string that contains
    [not found] and the requested name. *)
Theorem execute_not_found (w : world) (name : string) (kw : kwargs) :
  _tools w !! name = None →
  let message := "Error: Tool '" +:+ name +:+ "' not found." in
  execute name kw w =
    (Returned message,
     World (_tools w)
       ((trace w ++ [DebugExecuting name (kw.*1)]) ++ [WarningNotFound name]))
  ∧ contains "not found" message = true
  ∧ contains name message = true.
Proof.
  intros Hnone message. split; [| split].
  - rewrite execute_unfold. simpl. by rewrite Hnone.
  - unfold message. do 2 apply contains_append_right. by vm_compute.
  - unfold message. apply contains_append_right.
    apply (contains_append name "" "' not found.").
Qed.

Lemma execute_not_found_witness :
  _tools Samples.started !! "rm" = None
  ∧ (execute "rm" [] Samples.started).1
      = Returned "Error: Tool 'rm' not found.".
Proof.
  assert (H : _tools Samples.started !! "rm" = None) by by vm_compute.
  split; [exact H |].
  by rewrite (proj1 (execute_not_found Samples.started "rm" [] H)).
Defined.

(** C3: when the body of a registered tool raises a failure, [execute]
    returns [Error executing '<name>': <failure message>], which contains
    the tool name and the message of the failure, instead of letting the
    failure through; the registry is left as it was, so that any later
    call answers as it would have before. *)
Theorem execute_contains_failure (w : world) (name : string) (tool : Tool)
    (kw : kwargs) (e : exn) :
  _tools w !! name = Some tool →
  Tool_execute tool kw = Raised e →
  let message := "Error executing '" +:+ name +:+ "': " +:+ exc_str e in
  (execute name kw w).1 = Returned message
  ∧ contains name message = true
  ∧ contains (exc_str e) message = true
  ∧ _tools (execute name kw w).2 = _tools w
  ∧ ∀ name' kw',
      (execute name' kw' (execute name kw w).2).1 = (execute name' kw' w).1.
Proof.
  intros Htool Hraises message. repeat split.
  - rewrite execute_unfold. simpl. by rewrite Htool, Hraises.
  - unfold message. apply contains_append_right.
    apply (contains_append name "" ("': " +:+ exc_str e)).
  - unfold message. do 3 apply contains_append_right. apply contains_self.
  - apply execute_keeps_tools.
  - intros name' kw'. apply execute_result_tools, execute_keeps_tools.
Qed.

Lemma execute_contains_failure_witness :
  _tools Samples.started !! "boom"
    = Some (Build_Tool "boom" "Always fails." Samples.boom [])
  ∧ Tool_execute (Build_Tool "boom" "Always fails." Samples.boom []) []
    = Raised (Exn RuntimeError "disk on fire")
  ∧ (execute "boom" [] Samples.started).1
      = Returned "Error executing 'boom': disk on fire"
  ∧ (execute "ls" [] (execute "boom" [] Samples.started).2).1
      = Returned "first".
Proof.
  assert (H : _tools Samples.started !! "boom"
              = Some (Build_Tool "boom" "Always fails." Samples.boom []))
    by by vm_compute.
  pose proof (execute_contains_failure Samples.started "boom" _ []
                (Exn RuntimeError "disk on fire") H eq_refl)
    as (Hmsg & _ & _ & _ & Hnext).
  split; [exact H |]. split; [reflexivity |]. split; [exact Hmsg |].
  rewrite Hnext. by vm_compute.
Defined.

(** C5: registering under a name that already has a descriptor raises
    nothing and replaces it: [get] returns the descriptor just
    registered, [execute] enters the implementation just registered and
    answers with its outcome, and the registry holds as many names as
    before, the others untouched. *)
Theorem register_last_write_wins (w : world) (name : string) (old : Tool)
    (description : string) (parameters : option (list ToolParameter))
    (func : kwargs → result string) :
  _tools w !! name = Some old →
  let registered := register name description parameters func w in
  let tool := {| tool_name := name; tool_description := description;
                 tool_function := func;
                 tool_parameters := default [] parameters |} in
  registered.1 = Returned func
  ∧ get name registered.2 = (Returned (Some tool), registered.2)
  ∧ (∀ kw,
       (execute name kw registered.2).1 =
         match func kw with
         | Returned answer => Returned answer
         | Raised e =>
             Returned ("Error executing '" +:+ name +:+ "': " +:+ exc_str e)
         end
       ∧ ToolInvoked name kw ∈ trace (execute name kw registered.2).2)
  ∧ size (_tools registered.2) = size (_tools w)
  ∧ ∀ other, other ≠ name → _tools registered.2 !! other = _tools w !! other.
Proof.
  intros Hold registered tool.
  assert (Hlookup : _tools registered.2 !! name = Some tool)
    by apply lookup_insert_eq.
  split; [done |]. split; [| split; [| split]].
  - unfold get. by rewrite Hlookup.
  - intros kw. rewrite execute_unfold. cbv zeta. rewrite Hlookup.
    unfold Tool_execute. simpl.
    destruct (func kw); (split; [done |]); simpl; set_solver.
  - simpl. rewrite <- !size_dom, dom_insert_lookup_L; [done | by eexists].
  - intros other Hother. simpl. by rewrite lookup_insert_ne.
Qed.

Lemma register_last_write_wins_witness :
  _tools Samples.started !! "ls"
    = Some (Build_Tool "ls" "List files." Samples.ls_v1 [Samples.path_param])
  ∧ (execute "ls" []
       (register "ls" "List files, again." None Samples.ls_v2
          Samples.started).2).1
      = Returned "second".
Proof.
  assert (H : _tools Samples.started !! "ls"
              = Some (Build_Tool "ls" "List files." Samples.ls_v1
                        [Samples.path_param]))
    by by vm_compute.
  split; [exact H |].
  pose proof (register_last_write_wins Samples.started "ls" _
                "List files, again." None Samples.ls_v2 H)
    as (_ & _ & Hexecute & _).
  exact (proj1 (Hexecute [])).
Defined.

(** The keyword arguments pass the call site when no key is named after
    a positional parameter of [execute]. *)
Lemma unpack_for_execute_ok (d : kwargs) :
  "self" ∉ d.*1 → "name" ∉ d.*1 → unpack_for_execute (PyDict d) = Returned d.
Proof.
  intros Hself Hname. unfold unpack_for_execute.
  destruct (List.find _ (d.*1)) as [k|] eqn:Hfind; [| done].
  apply find_some in Hfind as [Hin Hk].
  apply list_elem_of_In in Hin.
  apply orb_true_iff in Hk as [Hk | Hk]; apply String.eqb_eq in Hk; by subst.
Qed.

Lemma unpack_for_execute_reserved (d : kwargs) :
  "self" ∈ d.*1 ∨ "name" ∈ d.*1 →
  ∃ message, unpack_for_execute (PyDict d) = Raised (Exn TypeError message).
Proof.
  intros Hin. unfold unpack_for_execute.
  destruct (List.find _ (d.*1)) as [k|] eqn:Hfind; [by eexists |].
  destruct Hin as [Hin | Hin]; apply list_elem_of_In in Hin;
    by apply (find_none _ _ Hfind) in Hin.
Qed.

Section WithLoader.
Variable json_loads : string → result pyvalue.


(** C1, where the code falls short of it: a string of arguments that
    is valid JSON but not an object is handed on to the call of
    [execute], whose unpacking raises [TypeError] out of
    [execute_tool_call]. *)
Theorem execute_tool_call_raises_on_non_object_json (w : world)
    (name : option string) (s : string) (v : pyvalue) :
  json_loads s = Returned v →
  (∀ d, v ≠ PyDict d) →
  ∃ message,
    execute_tool_call json_loads (ToolCall name (Some (PyStr s))) w
      = (Raised (Exn TypeError message), w).
Proof.
  intros Hloads Hv. unfold execute_tool_call. simpl. rewrite Hloads.
  destruct v; try (by eexists). by destruct (Hv d).
Qed.

(** The same escape for a mapping with a key [name] or [self]. *)
Lemma execute_tool_call_raises_on_reserved_key (w : world)
    (name : option string) (d : kwargs) :
  "self" ∈ d.*1 ∨ "name" ∈ d.*1 →
  ∃ message,
    execute_tool_call json_loads (ToolCall name (Some (PyDict d))) w
      = (Raised (Exn TypeError message), w).
Proof.
  intros Hin. destruct (unpack_for_execute_reserved d Hin) as [m Hm].
  exists m. unfold execute_tool_call. simpl.
  change (match List.find _ _ with Some k => _ | None => _ end)
    with (unpack_for_execute (PyDict d)).
  by rewrite Hm.
Qed.

Lemma execute_tool_call_contained (w : world) (tc : tool_call) :
  well_formed_arguments json_loads (default (PyDict []) (tc_arguments tc)) →
  ∃ answer, (execute_tool_call json_loads tc w).1 = Returned answer.
Proof.
  unfold well_formed_arguments, execute_tool_call.
  destruct (default (PyDict []) (tc_arguments tc)) as [| | | |s| |d];
    try done.
  - destruct (json_loads s) as [[| | | | | |d]|e]; try done.
    + intros [Hself Hname].
      rewrite (unpack_for_execute_ok d Hself Hname). apply execute_returns.
    + intros ->. by eexists.
  - intros [Hself Hname].
    rewrite (unpack_for_execute_ok d Hself Hname). apply execute_returns.
Qed.
End WithLoader.


Lemma execute_tool_call_raises_on_non_object_json_witness :
  Samples.loads "[1]" = Returned (PyList [PyInt 1])
  ∧ (∀ d, PyList [PyInt 1] ≠ PyDict d)
  ∧ ∃ message,
      execute_tool_call Samples.loads
        (ToolCall (Some "ls") (Some (PyStr "[1]"))) Samples.started
      = (Raised (Exn TypeError message), Samples.started).
Proof.
  split; [reflexivity |]. split; [discriminate |].
  apply (execute_tool_call_raises_on_non_object_json Samples.loads
           Samples.started (Some "ls") "[1]" (PyList [PyInt 1]));
    [reflexivity | discriminate].
Defined.
End ToolsProperties.


(** ** Properties of the retry wrapper *)

Section RetryProperties.
Import Retry.
Context {U A : Type}.
Variable args : retry_args U.
Variable random : nat → Q.
Variable func : U → result A * U.

Lemma documented_domain_nonneg_delays :
  documented_domain args → nonneg_delays args.
Proof.
  intros (_ & Hbase & Hmax & Hgrowth). unfold nonneg_delays.
  split; [| split]; lra.
Qed.

(** The capped delay is not negative, and neither is the jittered one. *)
Lemma capped_delay_bounds (attempt : Z) :
  nonneg_delays args →
  let capped :=
    Qmin (base_delay args * exponential_base args ^ (attempt - 1))
         (max_delay args) in
  (0 <= capped)%Q ∧ (capped <= max_delay args)%Q.
Proof.
  intros (Hbase & Hgrowth & Hmax) capped. split.
  - apply Q.min_glb; [| done].
    apply Qmult_le_0_compat; [done |]. by apply Qpower_0_le.
  - apply Q.le_min_r.
Qed.

Lemma jittered_delay_bounds (capped factor limit : Q) :
  (0 <= capped)%Q → (capped <= limit)%Q →
  (1 # 2 <= factor)%Q → (factor < 3 # 2)%Q →
  (0 <= capped * factor)%Q ∧ (capped * factor <= limit * (3 # 2))%Q.
Proof.
  intros Hcapped Hlimit Hlow Hhigh. split.
  - apply Qmult_le_0_compat; lra.
  - apply Qmult_le_compat_nonneg; split; lra.
Qed.

Lemma range_from_one (n : Z) : range 1 (n + 1) = seqZ 1 n.
Proof. unfold range. f_equal. lia. Qed.

(** C10: with [max_attempts <= 0] the loop body never runs: the wrapper
    does not enter the target, draws nothing, sleeps and logs nothing, and
    returns [None]. *)
Theorem no_attempts_returns_None (st : state U) :
  (max_attempts args ≤ 0)%Z →
  sync_wrapper args random func st = (Returned None, st, []).
Proof.
  intros Hmax. unfold sync_wrapper.
  by rewrite range_from_one, seqZ_nil.
Qed.

(** C7: a failure whose class is not among [exceptions] is not retried:
    the target is entered once, that very failure reaches the caller, and
    nothing else happens in between: no delay, no callback, no draw. *)
Theorem non_qualifying_failure_bypasses_retry (st : state U) (e : exn) (u : U) :
  (1 ≤ max_attempts args)%Z →
  func (user st) = (Raised e, u) →
  isinstance e (exceptions args) = false →
  let '(outcome, st', evs) := sync_wrapper args random func st in
  outcome = Raised e
  ∧ evs = [Called 1 (Some e)]
  ∧ call_count evs = 1%nat
  ∧ sleeps evs = []
  ∧ st' = State u (draws st).
Proof.
  intros Hmax Hfunc Hkind.
  unfold sync_wrapper. rewrite range_from_one, seqZ_cons by lia.
  simpl. by rewrite Hfunc, Hkind.
Qed.

(** One failed attempt that another attempt follows: the delay that is
    slept, and what the run leaves behind. *)
Lemma attempts_loop_retries (attempt : Z) (rest : list Z)
    (last_exception : option exn) (st : state U) (e : exn) (u : U) :
  nonneg_delays args → unit_interval random →
  func (user st) = (Raised e, u) →
  isinstance e (exceptions args) = true →
  attempt ≠ max_attempts args →
  ∃ (d : Q) (st2 : state U),
    (let capped :=
       Qmin (base_delay args * exponential_base args ^ (attempt - 1))
            (max_delay args) in
     if jitter args
     then ∃ n, let factor := ((1 # 2) + random n)%Q in
            (1 # 2 <= factor)%Q ∧ (factor < 3 # 2)%Q
            ∧ d = (capped * factor)%Q ∧ (d <= max_delay args * (3 # 2))%Q
     else d = capped)
    ∧ attempts_loop args random func (attempt :: rest) last_exception st =
        let '(r, st', after) :=
          attempts_loop args random func rest (Some e) st2 in
        (r, st',
         Called attempt (Some e) :: LogWarning attempt d e ::
           (match on_retry args with
            | Some _ => [OnRetry e attempt]
            | None => []
            end ++ Slept d :: after)).
Proof.
  intros Hnonneg Hrandom Hfunc Hkind Hattempt.
  destruct (capped_delay_bounds attempt Hnonneg) as [Hlow Hhigh].
  simpl in Hlow, Hhigh. simpl. rewrite Hfunc, Hkind.
  rewrite (proj2 (Z.eqb_neq _ _) Hattempt).
  destruct (jitter args).
  - destruct (Hrandom (draws st)) as [Hr0 Hr1].
    destruct (jittered_delay_bounds _ ((1 # 2) + random (draws st)) _
                Hlow Hhigh) as [Hd0 Hd1]; [lra | lra |].
    destruct (on_retry args) as [callback|]; simpl;
      rewrite (proj2 (Qle_bool_iff _ _) Hd0);
      eexists _, _; (split; [| reflexivity]);
      (exists (draws st); repeat split; [lra | lra | exact Hd1]).
  - destruct (on_retry args) as [callback|]; simpl;
      rewrite (proj2 (Qle_bool_iff _ _) Hlow);
      by eexists _, _.
Qed.

Lemma seqZ_S (a : Z) (n : nat) :
  seqZ a (Z.of_nat (S n)) = a :: seqZ (a + 1) (Z.of_nat n).
Proof. rewrite seqZ_cons by lia. f_equal. f_equal; lia. Qed.

Lemma calls_retry (k : Z) (f : option exn) (d d' : Q) (e : exn)
    (called_back : option (exn → Z → U → U)) (after : list event) :
  calls (Called k f :: LogWarning k d e ::
           (match called_back with
            | Some _ => [OnRetry e k]
            | None => []
            end ++ Slept d' :: after))
    = (k, f) :: calls after.
Proof. by destruct called_back. Qed.

(** Every round of the loop starts by entering the target. *)
Lemma attempts_loop_head (attempt : Z) (rest : list Z)
    (last_exception : option exn) (st : state U) :
  ∃ f tl,
    (attempts_loop args random func (attempt :: rest) last_exception st).2
      = Called attempt f :: tl.
Proof.
  simpl. repeat case_match; simplify_eq; simpl; by eexists _, _.
Qed.

(** The loop over the attempts [a], ..., [max_attempts] against a target
    that always fails: each attempt enters the target, the last failure is
    the one raised. *)
Lemma attempts_loop_exhausts (n : nat) :
  ∀ (a : Z) (last_exception : option exn) (st : state U),
    (a + Z.of_nat n = max_attempts args)%Z →
    nonneg_delays args → unit_interval random → always_fails args func →
    ∃ e st' evs,
      attempts_loop args random func (seqZ a (Z.of_nat (S n))) last_exception st
        = (Raised e, st', evs)
      ∧ (calls evs).*1 = seqZ a (Z.of_nat (S n))
      ∧ last (calls evs) = Some (max_attempts args, Some e).
Proof.
  induction n as [|n IH]; intros a last_exception st Ha Hnonneg Hrandom Hfails;
    destruct (Hfails (user st)) as (e & u & Hfunc & Hkind).
  - assert (a = max_attempts args) as -> by lia.
    exists e. change (seqZ (max_attempts args) (Z.of_nat 1))
      with [max_attempts args].
    simpl. rewrite Hfunc, Hkind, Z.eqb_refl. by eexists _, _.
  - rewrite seqZ_S.
    destruct (attempts_loop_retries a (seqZ (a + 1) (Z.of_nat (S n)))
                last_exception st e u Hnonneg Hrandom Hfunc Hkind)
      as (d & st2 & _ & ->); [lia |].
    destruct (IH (a + 1)%Z (Some e) st2) as (e' & st' & evs & -> & Hcalls & Hlast);
      [lia | done..|].
    exists e', st'. eexists. split; [reflexivity |].
    rewrite calls_retry. split.
    + by rewrite fmap_cons, Hcalls.
    + rewrite last_cons, Hlast. done.
Qed.


(** The loop over the attempts [a], ..., [max_attempts]: after an attempt
    [k] that is not the last and fails with a failure of a retried class,
    the loop logs the retry, calls the callback if there is one, sleeps
    and enters attempt [k + 1]; the length of the sleep follows the
    backoff formula. *)
Lemma attempts_loop_backoff (n : nat) :
  ∀ (a : Z) (last_exception : option exn) (st : state U) outcome st' evs k e,
    (a + Z.of_nat n = max_attempts args + 1)%Z →
    nonneg_delays args → unit_interval random →
    attempts_loop args random func (seqZ a (Z.of_nat n)) last_exception st
      = (outcome, st', evs) →
    (k < max_attempts args)%Z →
    isinstance e (exceptions args) = true →
    Called k (Some e) ∈ evs →
    ∃ pre d next post,
      evs = pre ++ Called k (Some e) :: LogWarning k d e ::
              (match on_retry args with
               | Some _ => [OnRetry e k]
               | None => []
               end ++ Slept d :: Called (k + 1) next :: post)
      ∧ let capped :=
          Qmin (base_delay args * exponential_base args ^ (k - 1))
               (max_delay args) in
        if jitter args
        then ∃ n, let factor := ((1 # 2) + random n)%Q in
               (1 # 2 <= factor)%Q ∧ (factor < 3 # 2)%Q
               ∧ d = (capped * factor)%Q ∧ (d <= max_delay args * (3 # 2))%Q
        else d = capped.
Proof.
  induction n as [|n IH];
    intros a last_exception st outcome st' evs k e Ha Hnonneg Hrandom Hrun
      Hk Hkind Hin.
  - simpl in Hrun. destruct last_exception; simplify_eq; by inversion Hin.
  - rewrite seqZ_S in Hrun.
    destruct (func (user st)) as [[v|e0] u] eqn:Hfunc.
    { simpl in Hrun. rewrite Hfunc in Hrun. simplify_eq.
      apply list_elem_of_singleton in Hin. discriminate. }
    destruct (isinstance e0 (exceptions args)) eqn:Hkind0; cycle 1.
    { simpl in Hrun. rewrite Hfunc, Hkind0 in Hrun. simplify_eq.
      apply list_elem_of_singleton in Hin. congruence. }
    destruct (decide (a = max_attempts args)) as [-> | Hlast].
    { simpl in Hrun. rewrite Hfunc, Hkind0, Z.eqb_refl in Hrun. simplify_eq.
      apply elem_of_cons in Hin as [Hin | Hin]; [simplify_eq; lia |].
      apply list_elem_of_singleton in Hin. discriminate. }
    destruct (attempts_loop_retries a (seqZ (a + 1) (Z.of_nat n))
                last_exception st e0 u Hnonneg Hrandom Hfunc Hkind0 Hlast)
      as (d & st2 & Hdelay & Hstep).
    rewrite Hstep in Hrun. clear Hstep.
    destruct (attempts_loop args random func (seqZ (a + 1) (Z.of_nat n))
                (Some e0) st2) as [[outcome2 st3] after] eqn:Hrest.
    simplify_eq.
    apply elem_of_cons in Hin as [Hin | Hin].
    + simplify_eq. destruct n as [|n]; [lia |].
      rewrite seqZ_S in Hrest.
      destruct (attempts_loop_head (a + 1) (seqZ (a + 1 + 1) (Z.of_nat n))
                  (Some e0) st2) as (next & post & Hhead).
      rewrite Hrest in Hhead. simpl in Hhead. subst after.
      by exists [], d, next, post.
    + apply elem_of_cons in Hin as [Hin | Hin]; [discriminate |].
      apply elem_of_app in Hin as [Hin | Hin].
      { destruct (on_retry args); [| by inversion Hin].
        apply list_elem_of_singleton in Hin. discriminate. }
      apply elem_of_cons in Hin as [Hin | Hin]; [discriminate |].
      destruct (IH (a + 1)%Z (Some e0) st2 outcome st' after k e)
        as (pre & d' & next & post & -> & Hdelay'); [lia | done..|].
      eexists (Called a (Some e0) :: LogWarning a d e0 ::
                 (match on_retry args with
                  | Some _ => [OnRetry e0 a]
                  | None => []
                  end ++ Slept d :: pre)), d', next, post.
      split; [| done].
      simpl. do 2 f_equal. by rewrite <- app_assoc.
Qed.

End RetryProperties.

Section RetrySamples.
Import Retry.

Lemma three_attempts_nonneg_delays : nonneg_delays Samples.three_attempts.
Proof. repeat split; by vm_compute. Qed.

Lemma three_attempts_jittered_nonneg_delays :
  nonneg_delays Samples.three_attempts_jittered.
Proof. repeat split; by vm_compute. Qed.

Lemma quarter_unit_interval : unit_interval Samples.quarter.
Proof. intros n. split; by vm_compute. Qed.

Lemma always_failing_always_fails :
  always_fails Samples.three_attempts Samples.always_failing.
Proof. intros u. by eexists _, _. Qed.

Lemma no_attempts_returns_None_witness :
  (max_attempts Samples.no_attempts ≤ 0)%Z
  ∧ sync_wrapper Samples.no_attempts Samples.quarter Samples.always_failing
      (State 0%nat 0%nat)
    = (Returned None, State 0%nat 0%nat, []).
Proof.
  split; [by vm_compute |].
  apply no_attempts_returns_None. by vm_compute.
Defined.

Lemma non_qualifying_failure_bypasses_retry_witness :
  (1 ≤ max_attempts Samples.three_attempts)%Z
  ∧ Samples.wrong_kind 0%nat = (Raised (Exn TypeError "Not retried"), 1%nat)
  ∧ isinstance (Exn TypeError "Not retried")
      (exceptions Samples.three_attempts) = false
  ∧ sync_wrapper Samples.three_attempts Samples.quarter Samples.wrong_kind
      (State 0%nat 0%nat)
    = (Raised (Exn TypeError "Not retried"), State 1%nat 0%nat,
       [Called 1 (Some (Exn TypeError "Not retried"))]).
Proof.
  assert (Hmax : (1 ≤ max_attempts Samples.three_attempts)%Z) by by vm_compute.
  split; [exact Hmax |]. split; [reflexivity |]. split; [reflexivity |].
  pose proof (non_qualifying_failure_bypasses_retry Samples.three_attempts
                Samples.quarter Samples.wrong_kind (State 0%nat 0%nat)
                (Exn TypeError "Not retried") 1%nat Hmax eq_refl eq_refl) as H.
  destruct (sync_wrapper _ _ _ _) as [[outcome st'] evs].
  destruct H as (-> & -> & _ & _ & ->). reflexivity.
Defined.



(** With jitter and a generator that draws one quarter, the first sleep
    lasts three quarters of the capped delay. *)
Example jittered_first_sleep :
  sleeps (sync_wrapper Samples.three_attempts_jittered Samples.quarter
            Samples.always_failing (State 0%nat 0%nat)).2 !! 0%nat
    = Some (Qmin ((1 # 100) * 2 ^ (1 - 1)) 60 * ((1 # 2) + (1 # 4)))%Q.
Proof. reflexivity. Qed.

(** Outside the documented domain, a negative delay stops the run at the
    first sleep: [time.sleep] raises [ValueError] from within the handler. *)
Example negative_delay_is_refused :
  sync_wrapper Samples.negative_base_delay Samples.quarter
    Samples.always_failing (State 0%nat 0%nat)
  = (Raised (Exn ValueError "sleep length must be non-negative"),
     State 1%nat 0%nat,
     [Called 1 (Some (Exn ValueError "Persistent error"));
      LogWarning 1 (Qmin (-1 * 2 ^ (1 - 1)) 60)
        (Exn ValueError "Persistent error")]).
Proof. reflexivity. Qed.
End RetrySamples.

(** ** Properties of every run of the retry wrapper *)

Section RetryRuns.
Import Retry RetryMore.
Context {U A : Type}.
Variable args : retry_args U.
Variable random : nat → Q.
Variable func : U → result A * U.

(** The ways one round of the loop can go. *)
Lemma attempts_loop_cases (attempt : Z) (rest : list Z)
    (last_exception : option exn) (st : state U) :
  (∃ v u, func (user st) = (Returned v, u)
     ∧ attempts_loop args random func (attempt :: rest) last_exception st
       = (Returned (Some v), State u (draws st), [Called attempt None]))
  ∨ (∃ e u, func (user st) = (Raised e, u)
       ∧ isinstance e (exceptions args) = false
       ∧ attempts_loop args random func (attempt :: rest) last_exception st
         = (Raised e, State u (draws st), [Called attempt (Some e)]))
  ∨ (∃ e u, func (user st) = (Raised e, u)
       ∧ isinstance e (exceptions args) = true
       ∧ attempt = max_attempts args
       ∧ attempts_loop args random func (attempt :: rest) last_exception st
         = (Raised e, State u (draws st),
            [Called attempt (Some e); LogError attempt e]))
  ∨ (∃ e u st2, func (user st) = (Raised e, u)
       ∧ isinstance e (exceptions args) = true
       ∧ attempt ≠ max_attempts args
       ∧ Qle_bool 0 (delay_for args random attempt (draws st)) = false
       ∧ attempts_loop args random func (attempt :: rest) last_exception st
         = (Raised sleep_error, st2,
            Called attempt (Some e)
              :: LogWarning attempt (delay_for args random attempt (draws st)) e
              :: match on_retry args with
                 | Some _ => [OnRetry e attempt]
                 | None => []
                 end))
  ∨ (∃ e u st2, func (user st) = (Raised e, u)
       ∧ isinstance e (exceptions args) = true
       ∧ attempt ≠ max_attempts args
       ∧ Qle_bool 0 (delay_for args random attempt (draws st)) = true
       ∧ attempts_loop args random func (attempt :: rest) last_exception st
         = (let '(outcome, st', after) :=
              attempts_loop args random func rest (Some e) st2 in
            (outcome, st',
             Called attempt (Some e)
               :: LogWarning attempt (delay_for args random attempt (draws st)) e
               :: (match on_retry args with
                   | Some _ => [OnRetry e attempt]
                   | None => []
                   end
                   ++ Slept (delay_for args random attempt (draws st))
                        :: after)))
       ∧ draws st2 = (if jitter args then S (draws st) else draws st)).
Proof.
  unfold delay_for. simpl.
  destruct (func (user st)) as [[v|e] u]; [left; by eexists _, _ |].
  destruct (isinstance e (exceptions args)) eqn:Hkind;
    [| right; left; by eexists _, _].
  destruct (Z.eqb_spec attempt (max_attempts args)) as [Heq | Hne];
    [right; right; left; by eexists _, _ |].
  do 3 right.
  destruct (jitter args), (on_retry args) as [callback|]; simpl;
    match goal with
    | |- context [Qle_bool 0 ?d] => destruct (Qle_bool 0 d) eqn:Hsleep
    end;
    first [ right; by eexists _, _, _ | left; by eexists _, _, _ ].
Qed.

Lemma seqZ_to_nat (a n : Z) : seqZ a n = seqZ a (Z.of_nat (Z.to_nat n)).
Proof. unfold seqZ. by rewrite Nat2Z.id. Qed.

(** The entries into the target over the attempts [a], [a + 1], ...:
    they carry the numbers of a first stretch of the attempts, and all of
    them but the last raised a failure of a retried class. *)
Lemma attempts_loop_calls (n : nat) :
  ∀ (a : Z) (last_exception : option exn) (st : state U),
    let evs :=
      (attempts_loop args random func (seqZ a (Z.of_nat n))
         last_exception st).2 in
    ∃ m, (m ≤ n)%nat
      ∧ (calls evs).*1 = seqZ a (Z.of_nat m)
      ∧ ∀ i k f, calls evs !! i = Some (k, f) → (S i < m)%nat →
          ∃ e, f = Some e ∧ isinstance e (exceptions args) = true.
Proof.
  induction n as [|n IH]; intros a last_exception st evs; subst evs.
  - exists 0%nat. simpl. destruct last_exception; (split; [done |]);
      (split; [done |]); intros; lia.
  - rewrite seqZ_S.
    destruct (attempts_loop_cases a (seqZ (a + 1) (Z.of_nat n))
                last_exception st)
      as [(v & u & _ & ->) | [(e & u & _ & _ & ->) | [(e & u & _ & _ & _ & ->)
         | [(e & u & st2 & _ & _ & _ & _ & ->)
           | (e & u & st2 & _ & Hkind & _ & _ & -> & _)]]]].
    1-3: exists 1%nat; simpl; (split; [lia |]); (split; [done |]);
         intros; lia.
    + exists 1%nat. simpl. split; [lia |]. split.
      * by destruct (on_retry args).
      * intros; lia.
    + specialize (IH (a + 1)%Z (Some e) st2). simpl in IH.
      destruct (attempts_loop args random func (seqZ (a + 1) (Z.of_nat n))
                  (Some e) st2) as [[outcome st'] after].
      destruct IH as (m & Hm & Hnumbers & Hfailed). cbn [snd] in *.
      exists (S m). split; [lia |]. rewrite calls_retry. split.
      * by rewrite fmap_cons, Hnumbers, (seqZ_S a m).
      * intros [|i] k f Hlookup Hi; simpl in Hlookup.
        { simplify_eq. by exists e. }
        apply (Hfailed i k f Hlookup). lia.
Qed.

(** X1: in every run, the target is entered at most [max_attempts]
    times, and the entries carry the attempt numbers [1], [2], ... in
    order, without a gap. *)
Theorem calls_numbered_and_bounded (st : state U) :
  let evs := (sync_wrapper args random func st).2 in
  (calls evs).*1 = seqZ 1 (Z.of_nat (call_count evs))
  ∧ (call_count evs ≤ Z.to_nat (max_attempts args))%nat.
Proof.
  intros evs. subst evs. unfold sync_wrapper.
  rewrite range_from_one, seqZ_to_nat.
  destruct (attempts_loop_calls (Z.to_nat (max_attempts args)) 1 None st)
    as (m & Hm & Hnumbers & _).
  assert (Hcount : call_count (attempts_loop args random func
            (seqZ 1 (Z.of_nat (Z.to_nat (max_attempts args)))) None st).2 = m).
  { unfold call_count.
    rewrite <- (length_fmap fst), Hnumbers, length_seqZ. lia. }
  by rewrite Hcount.
Qed.

(** X2: only the last entry into the target can return or raise a
    failure outside the retried classes: every earlier entry raised a
    failure of a retried class. *)
Theorem earlier_calls_failed (st : state U) (i : nat) (k : Z)
    (f : option exn) :
  let evs := (sync_wrapper args random func st).2 in
  calls evs !! i = Some (k, f) →
  (S i < call_count evs)%nat →
  ∃ e, f = Some e ∧ isinstance e (exceptions args) = true.
Proof.
  intros evs. subst evs. unfold sync_wrapper.
  rewrite range_from_one, seqZ_to_nat.
  destruct (attempts_loop_calls (Z.to_nat (max_attempts args)) 1 None st)
    as (m & Hm & Hnumbers & Hfailed).
  intros Hlookup Hi. apply (Hfailed i k f Hlookup).
  unfold call_count in Hi.
  rewrite <- (length_fmap fst), Hnumbers, length_seqZ in Hi. lia.
Qed.

(** Within the documented domain no computed delay is negative. *)
Lemma delay_for_nonneg (attempt : Z) (drawn : nat) :
  nonneg_delays args → unit_interval random →
  Qle_bool 0 (delay_for args random attempt drawn) = true.
Proof.
  intros Hnonneg Hrandom. apply Qle_bool_iff. unfold delay_for.
  destruct (capped_delay_bounds args attempt Hnonneg) as [Hlow Hhigh].
  simpl in Hlow, Hhigh. destruct (jitter args); [| done].
  destruct (Hrandom drawn) as [Hr0 Hr1].
  apply (jittered_delay_bounds _ ((1 # 2) + random drawn) _ Hlow Hhigh); lra.
Qed.

(** Where the outcome of the loop comes from. *)
Lemma attempts_loop_outcome (n : nat) :
  ∀ (a : Z) (last_exception : option exn) (st st' : state U) outcome evs,
    attempts_loop args random func (seqZ a (Z.of_nat n)) last_exception st
      = (outcome, st', evs) →
    match outcome with
    | Returned (Some v) =>
        ∃ u k, func u = (Returned v, user st')
          ∧ last (calls evs) = Some (k, None)
    | Returned None => n = 0%nat ∧ last_exception = None
    | Raised e =>
        (n = 0%nat ∧ last_exception = Some e)
        ∨ (∃ u k, (func u).1 = Raised e ∧ last (calls evs) = Some (k, Some e))
        ∨ (e = sleep_error
           ∧ ∃ k drawn, Qle_bool 0 (delay_for args random k drawn) = false)
    end.
Proof.
  induction n as [|n IH]; intros a last_exception st st' outcome evs Hrun.
  - simpl in Hrun. destruct last_exception; simplify_eq; [by left | done].
  - rewrite seqZ_S in Hrun.
    destruct (attempts_loop_cases a (seqZ (a + 1) (Z.of_nat n))
                last_exception st)
      as [(v & u & Hfunc & Heq) | [(e & u & Hfunc & _ & Heq)
         | [(e & u & Hfunc & _ & _ & Heq)
           | [(e & u & st2 & _ & _ & _ & Hsleep & Heq)
             | (e & u & st2 & Hfunc & _ & _ & _ & Heq & _)]]]];
      rewrite Heq in Hrun; clear Heq.
    + simplify_eq. by exists (user st), a.
    + simplify_eq. right; left. exists (user st), a. by rewrite Hfunc.
    + simplify_eq. right; left. exists (user st), a. by rewrite Hfunc.
    + simplify_eq. right; right. split; [done |]. by eexists _, _.
    + destruct (attempts_loop args random func (seqZ (a + 1) (Z.of_nat n))
                  (Some e) st2) as [[outcome2 st3] after] eqn:Hrest.
      simplify_eq. specialize (IH _ _ _ _ _ _ Hrest).
      rewrite calls_retry, last_cons.
      destruct outcome as [[v|]|e'].
      * destruct IH as (u' & k & Hv & ->). by exists u', k.
      * by destruct IH.
      * destruct IH as [[-> Hlast] | [(u' & k & Hv & ->) | Hrefused]].
        { simplify_eq. simpl in Hrest. simplify_eq. right; left.
          exists (user st), a. by rewrite Hfunc. }
        { right; left. by exists u', k. }
        { by right; right. }
Qed.

(** X3: a value that the wrapper returns is the value that the last
    entry into the target returned, and the state is left as that entry
    left it. *)
Theorem returned_value_is_the_targets (st st' : state U) (v : A)
    (evs : list event) :
  sync_wrapper args random func st = (Returned (Some v), st', evs) →
  ∃ u k, func u = (Returned v, user st')
    ∧ last (calls evs) = Some (k, None).
Proof.
  unfold sync_wrapper. rewrite range_from_one, seqZ_to_nat. intros Hrun.
  exact (attempts_loop_outcome _ _ _ _ _ _ _ Hrun).
Qed.

(** X4: the statements after the loop are reached only when the loop has
    no round to run: the wrapper returns [None] exactly when
    [max_attempts <= 0]. *)
Theorem returns_None_iff_no_attempts (st : state U) :
  (sync_wrapper args random func st).1.1 = Returned None
  ↔ (max_attempts args ≤ 0)%Z.
Proof.
  unfold sync_wrapper. rewrite range_from_one. split.
  - rewrite seqZ_to_nat.
    destruct (attempts_loop _ _ _ _ _ _) as [[outcome st'] evs] eqn:Hrun.
    simpl. intros ->.
    destruct (attempts_loop_outcome _ _ _ _ _ _ _ Hrun) as [Hzero _]. lia.
  - intros Hmax. by rewrite seqZ_nil.
Qed.


Lemma sleeps_retry (k : Z) (f : option exn) (d d' : Q) (e : exn)
    (called_back : option (exn → Z → U → U)) (after : list event) :
  sleeps (Called k f :: LogWarning k d e ::
            (match called_back with
             | Some _ => [OnRetry e k]
             | None => []
             end ++ Slept d' :: after))
    = d' :: sleeps after.
Proof. by destruct called_back. Qed.

Lemma callbacks_retry (k : Z) (f : option exn) (d d' : Q) (e : exn)
    (called_back : option (exn → Z → U → U)) (after : list event) :
  callbacks (Called k f :: LogWarning k d e ::
               (match called_back with
                | Some _ => [OnRetry e k]
                | None => []
                end ++ Slept d' :: after))
    = match called_back with
      | Some _ => (e, k) :: callbacks after
      | None => callbacks after
      end.
Proof. by destruct called_back. Qed.

(** What lies between the entries into the target, over the attempts
    [a], ..., [max_attempts]: one sleep after every entry but the last,
    of the length computed for that attempt, and one call of the callback
    for every entry that is retried. *)
Lemma attempts_loop_between (n : nat) :
  ∀ (a : Z) (last_exception : option exn) (st : state U),
    (a + Z.of_nat n = max_attempts args)%Z →
    let evs :=
      (attempts_loop args random func (seqZ a (Z.of_nat (S n)))
         last_exception st).2 in
    length (calls evs) = S (length (sleeps evs))
    ∧ (∀ i d, sleeps evs !! i = Some d →
         d = delay_for args random (a + Z.of_nat i)
               (if jitter args then draws st + i else draws st)
         ∧ Qle_bool 0 d = true)
    ∧ (on_retry args = None → callbacks evs = [])
    ∧ (∀ i e k, callbacks evs !! i = Some (e, k) →
         calls evs !! i = Some (k, Some e))
    ∧ (is_Some (on_retry args) →
       (∀ k drawn, Qle_bool 0 (delay_for args random k drawn) = true) →
       length (callbacks evs) = length (sleeps evs)).
Proof.
  induction n as [|n IH]; intros a last_exception st Ha evs; subst evs;
    rewrite seqZ_S;
    match goal with
    | |- context [attempts_loop _ _ _ (a :: ?rest) _ _] =>
        destruct (attempts_loop_cases a rest last_exception st)
          as [(v & u & _ & ->) | [(e & u & _ & _ & ->)
             | [(e & u & _ & _ & _ & ->)
               | [(e & u & st2 & _ & _ & Hne & Hsleep & ->)
                 | (e & u & st2 & _ & _ & Hne & Hsleep & -> & Hdraws)]]]]
    end;
    try (simpl; repeat split; intros; simplify_eq; done);
    try lia.
  - (* the sleep is refused *)
    cbn [snd]. split; [| split; [| split; [| split]]].
    + by destruct (on_retry args).
    + intros i d. by destruct (on_retry args).
    + by intros ->.
    + intros i e' k. destruct (on_retry args); [| done].
      destruct i; intros [=]. by subst.
    + intros _ Hall. by rewrite Hall in Hsleep.
  - (* another round follows *)
    specialize (IH (a + 1)%Z (Some e) st2 ltac:(lia)). cbn [snd] in IH.
    destruct (attempts_loop args random func (seqZ (a + 1) (Z.of_nat (S n)))
                (Some e) st2) as [[outcome st'] after].
    destruct IH as (Hcount & Hsleeps & Hnone & Hcalls & Hsome).
    cbn [snd] in *.
    rewrite calls_retry, sleeps_retry, callbacks_retry.
    split; [by rewrite !length_cons, Hcount |]. split; [| split; [| split]].
    + intros [|i] d Hd; simpl in Hd.
      * simplify_eq. split; [| done]. f_equal; [lia |].
        destruct (jitter args); lia.
      * destruct (Hsleeps i d Hd) as [-> Hok]. split; [| done].
        rewrite Hdraws. f_equal; [lia |]. destruct (jitter args); lia.
    + intros Hoff. rewrite Hoff. by apply Hnone.
    + intros i e' k. destruct (on_retry args); [| by rewrite Hnone].
      destruct i as [|i]; simpl; [by intros [= -> ->] | by apply Hcalls].
    + intros Hon Hall. destruct (on_retry args); [| by destruct Hon].
      rewrite !length_cons. f_equal. by apply Hsome.
Qed.

Lemma call_count_bounded (st : state U) :
  (call_count (sync_wrapper args random func st).2
   ≤ Z.to_nat (max_attempts args))%nat.
Proof.
  unfold sync_wrapper. rewrite range_from_one, seqZ_to_nat.
  destruct (attempts_loop_calls (Z.to_nat (max_attempts args)) 1 None st)
    as (m & Hm & Hnumbers & _).
  unfold call_count.
  rewrite <- (length_fmap fst), Hnumbers, length_seqZ. lia.
Qed.

(** The run of the wrapper, for [max_attempts >= 1], as a run of the loop
    over [1], ..., [max_attempts]. *)
Lemma sync_wrapper_unfold (st : state U) :
  (1 ≤ max_attempts args)%Z →
  sync_wrapper args random func st =
    attempts_loop args random func
      (seqZ 1 (Z.of_nat (S (Z.to_nat (max_attempts args - 1))))) None st.
Proof.
  intros Hmax. unfold sync_wrapper. rewrite range_from_one. do 2 f_equal. lia.
Qed.

Lemma sync_wrapper_no_attempts (st : state U) :
  ¬ (1 ≤ max_attempts args)%Z →
  sync_wrapper args random func st = (Returned None, st, []).
Proof.
  intros Hmax. unfold sync_wrapper. rewrite range_from_one, seqZ_nil; [done | lia].
Qed.

(** A delay that is slept does not exceed one and a half times the cap. *)
Lemma delay_for_bounds (attempt : Z) (drawn : nat) :
  unit_interval random →
  Qle_bool 0 (delay_for args random attempt drawn) = true →
  (0 <= delay_for args random attempt drawn)%Q
  ∧ (delay_for args random attempt drawn <= max_delay args * (3 # 2))%Q.
Proof.
  intros Hrandom Hslept. apply Qle_bool_iff in Hslept. split; [done |].
  revert Hslept. unfold delay_for.
  pose proof (Q.le_min_r (base_delay args * exponential_base args ^ (attempt - 1))
                (max_delay args)) as Hcap.
  revert Hcap.
  generalize (Qmin (base_delay args * exponential_base args ^ (attempt - 1))
                (max_delay args)).
  intros capped Hcap. destruct (jitter args); [| intros; lra].
  destruct (Hrandom drawn) as [Hr0 Hr1]. intros Hslept.
  assert (0 <= capped)%Q by nra.
  apply jittered_delay_bounds; lra.
Qed.

Lemma total_bound (delays : list Q) (limit : Q) :
  (∀ d, d ∈ delays → (d <= limit)%Q) →
  (total delays <= inject_Z (Z.of_nat (length delays)) * limit)%Q.
Proof.
  induction delays as [|d delays IH]; intros Hall.
  { change (0 <= 0 * limit)%Q. lra. }
  change (d + total delays
          <= inject_Z (Z.of_nat (S (length delays))) * limit)%Q.
  assert (Hsucc : (inject_Z (Z.of_nat (S (length delays)))
                   == inject_Z (Z.of_nat (length delays)) + 1)%Q).
  { rewrite Nat2Z.inj_succ. unfold Z.succ. by rewrite inject_Z_plus. }
  rewrite Hsucc.
  pose proof (Hall d ltac:(left)) as Hd.
  pose proof (IH (λ d' Hin, Hall d' ltac:(by right))) as Hrest.
  lra.
Qed.

(** X6: in every run there is exactly one sleep between two successive
    entries into the target; each sleep lasts between zero and one and a
    half times [max_delay], so the wrapper blocks for no more than
    [(max_attempts - 1) * 1.5 * max_delay] in all. *)
Theorem sleeps_between_calls (st : state U) :
  unit_interval random →
  let evs := (sync_wrapper args random func st).2 in
  length (sleeps evs) = (call_count evs - 1)%nat
  ∧ (∀ d, d ∈ sleeps evs →
       (0 <= d)%Q ∧ (d <= max_delay args * (3 # 2))%Q)
  ∧ ((1 ≤ max_attempts args)%Z → (0 <= max_delay args)%Q →
     (total (sleeps evs)
      <= inject_Z (max_attempts args - 1) * (max_delay args * (3 # 2)))%Q).
Proof.
  intros Hrandom evs. subst evs.
  destruct (decide (1 ≤ max_attempts args)%Z) as [Hmax | Hmax]; cycle 1.
  { rewrite sync_wrapper_no_attempts by done. simpl.
    split; [done |]. split; [| done]. intros d Hd. by inversion Hd. }
  pose proof (call_count_bounded st) as Hbound.
  rewrite sync_wrapper_unfold in * by done.
  destruct (attempts_loop_between (Z.to_nat (max_attempts args - 1)) 1 None st
              ltac:(lia)) as (Hcount & Hsleeps & _).
  set (evs := (attempts_loop _ _ _ _ _ _).2) in *.
  assert (Heach : ∀ d, d ∈ sleeps evs →
            (0 <= d)%Q ∧ (d <= max_delay args * (3 # 2))%Q).
  { intros d Hd. apply list_elem_of_lookup in Hd as [i Hd].
    destruct (Hsleeps i d Hd) as [-> Hslept]. by apply delay_for_bounds. }
  split; [unfold call_count; lia |]. split; [exact Heach |].
  intros _ Hcap.
  pose proof (total_bound (sleeps evs) _ (λ d Hd, proj2 (Heach d Hd))) as Htotal.
  assert (Hfew : (inject_Z (Z.of_nat (length (sleeps evs)))
                  <= inject_Z (max_attempts args - 1))%Q).
  { rewrite <- Zle_Qle. unfold call_count in Hbound. lia. }
  nra.
Qed.

(** X7: without jitter, with a base delay that is not negative and a
    growth factor of at least one, the sleeps of a run never shrink from
    one to the next, and none exceeds [max_delay]. *)
Theorem sleeps_never_shrink (st : state U) (i j : nat) (d d' : Q) :
  jitter args = false →
  (0 <= base_delay args)%Q → (1 <= exponential_base args)%Q →
  let evs := (sync_wrapper args random func st).2 in
  (i ≤ j)%nat →
  sleeps evs !! i = Some d → sleeps evs !! j = Some d' →
  (d <= d')%Q ∧ (d' <= max_delay args)%Q.
Proof.
  intros Hjitter Hbase Hgrowth evs Hij. subst evs.
  destruct (decide (1 ≤ max_attempts args)%Z) as [Hmax | Hmax]; cycle 1.
  { by rewrite sync_wrapper_no_attempts. }
  rewrite sync_wrapper_unfold by done.
  destruct (attempts_loop_between (Z.to_nat (max_attempts args - 1)) 1 None st
              ltac:(lia)) as (_ & Hsleeps & _).
  intros Hi Hj.
  destruct (Hsleeps i d Hi) as [-> _]. destruct (Hsleeps j d' Hj) as [-> _].
  unfold delay_for. rewrite Hjitter. split; [| apply Q.le_min_r].
  apply Q.min_le_compat_r.
  rewrite !(Qmult_comm (base_delay args)).
  apply Qmult_le_compat_r; [| done].
  apply Qpower_le_compat_l; [lia | done].
Qed.


Variable others : Q → U → U.

(** The two loops agree as long as no delay is negative and nothing else
    touches the shared state during a sleep. *)
Lemma attempts_loop_async_sync (attempts : list Z) :
  (∀ k drawn, Qle_bool 0 (delay_for args random k drawn) = true) →
  (∀ d u, others d u = u) →
  ∀ (last_exception : option exn) (st : state U),
    attempts_loop_async args random others func attempts last_exception st
    = attempts_loop args random func attempts last_exception st.
Proof.
  intros Hdelays Hothers.
  induction attempts as [|attempt rest IH]; intros last_exception st; [done |].
  simpl. destruct (func (user st)) as [[v|e] u]; [done |].
  destruct (isinstance e (exceptions args)); [| done].
  destruct (attempt =? max_attempts args)%Z; [done |].
  pose proof (Hdelays attempt (draws st)) as Hdelay. unfold delay_for in Hdelay.
  destruct (jitter args), (on_retry args) as [callback|]; simpl;
    by rewrite Hdelay, Hothers, IH.
Qed.


(** The asynchronous loop over the attempts [a], ..., [max_attempts]
    against a target that always fails. *)
Lemma attempts_loop_async_exhausts (n : nat) :
  ∀ (a : Z) (last_exception : option exn) (st : state U),
    (a + Z.of_nat n = max_attempts args)%Z →
    always_fails args func →
    ∃ e st' evs,
      attempts_loop_async args random others func (seqZ a (Z.of_nat (S n)))
        last_exception st = (Raised e, st', evs)
      ∧ (calls evs).*1 = seqZ a (Z.of_nat (S n))
      ∧ last (calls evs) = Some (max_attempts args, Some e)
      ∧ length (sleeps evs) = n.
Proof.
  induction n as [|n IH]; intros a last_exception st Ha Hfails;
    destruct (Hfails (user st)) as (e & u & Hfunc & Hkind).
  - assert (a = max_attempts args) as -> by lia.
    exists e. change (seqZ (max_attempts args) (Z.of_nat 1))
      with [max_attempts args].
    simpl. rewrite Hfunc, Hkind, Z.eqb_refl. by eexists _, _.
  - rewrite seqZ_S. simpl. rewrite Hfunc, Hkind.
    rewrite (proj2 (Z.eqb_neq a (max_attempts args))) by lia.
    destruct (jitter args), (on_retry args) as [callback|]; simpl;
      match goal with
      | |- context [attempts_loop_async _ _ _ _ ?rest ?l ?s] =>
          destruct (IH (a + 1)%Z l s)
            as (e' & st' & evs & Hrun & Hcalls & Hlast & Hsleeps);
            [lia | done |]
      end;
      rewrite Hrun; exists e', st'; eexists; (split; [reflexivity |]);
      unfold calls, sleeps in *; simpl; rewrite last_cons;
      (split; [f_equal; exact Hcalls | split; [| f_equal; exact Hsleeps]]);
      match goal with
      | |- match last ?x with _ => _ end = _ =>
          by replace (last x) with (Some (max_attempts args, Some e'))
            by (symmetry; exact Hlast)
      end.
Qed.


(** The sleeps of a run: how many at most, and how long each. *)
Lemma sync_wrapper_sleeps (st : state U) :
  let evs := (sync_wrapper args random func st).2 in
  (length (sleeps evs) ≤ Z.to_nat (max_attempts args) - 1)%nat
  ∧ ∀ i d, sleeps evs !! i = Some d →
      ∃ drawn, d = delay_for args random (1 + Z.of_nat i) drawn.
Proof.
  intros evs. subst evs.
  destruct (decide (1 ≤ max_attempts args)%Z) as [Hmax | Hmax]; cycle 1.
  { rewrite sync_wrapper_no_attempts by done. simpl. split; [lia | done]. }
  pose proof (call_count_bounded st) as Hbound.
  rewrite sync_wrapper_unfold in * by done.
  destruct (attempts_loop_between (Z.to_nat (max_attempts args - 1)) 1 None st
              ltac:(lia)) as (Hcount & Hsleeps & _).
  split; [unfold call_count in Hbound; lia |].
  intros i d Hd. destruct (Hsleeps i d Hd) as [-> _]. by eexists.
Qed.
End RetryRuns.

Section Presets.
Import Retry RetryMore.
Context {U A : Type}.
Variable random : nat → Q.
Variable func : U → result A * U.

(** A computed delay against a bound on its capped value. *)
Lemma delay_for_le (args : retry_args U) (attempt : Z) (drawn : nat)
    (limit : Q) :
  unit_interval random →
  (Qmin (base_delay args * exponential_base args ^ (attempt - 1))
        (max_delay args) <= limit)%Q →
  (0 <= limit)%Q →
  (delay_for args random attempt drawn <= limit * (3 # 2))%Q.
Proof.
  intros Hrandom. unfold delay_for.
  generalize (Qmin (base_delay args * exponential_base args ^ (attempt - 1))
                (max_delay args)).
  intros capped Hcapped Hlimit. destruct (Hrandom drawn) as [Hr0 Hr1].
  destruct (jitter args); nra.
Qed.

(** X11: the two pre-configured decorators block for a bounded time
    whatever the target does: [retry_api] enters it at most three times
    and sleeps at most 4.5 seconds in all, [retry_network] at most five
    times and 11.25 seconds. *)
Theorem preset_budgets (st : state U) :
  unit_interval random →
  let api := (sync_wrapper retry_api random func st).2 in
  let network := (sync_wrapper retry_network random func st).2 in
  (call_count api ≤ 3)%nat ∧ (total (sleeps api) <= 9 # 2)%Q
  ∧ (call_count network ≤ 5)%nat ∧ (total (sleeps network) <= 45 # 4)%Q.
Proof.
  intros Hrandom api network. subst api network.
  pose proof (call_count_bounded retry_api random func st) as Hapi.
  pose proof (call_count_bounded retry_network random func st) as Hnetwork.
  destruct (sync_wrapper_sleeps retry_api random func st) as [Hn1 Hd1].
  destruct (sync_wrapper_sleeps retry_network random func st) as [Hn2 Hd2].
  assert (Hapi_le : ∀ i drawn limit,
            (Qmin (1 * 2 ^ (1 + Z.of_nat i - 1)) 30 <= limit)%Q →
            (0 <= limit)%Q →
            (delay_for (@retry_api U) random (1 + Z.of_nat i) drawn
             <= limit * (3 # 2))%Q)
    by (intros; by apply delay_for_le).
  assert (Hnetwork_le : ∀ i drawn limit,
            (Qmin ((1 # 2) * 2 ^ (1 + Z.of_nat i - 1)) 60 <= limit)%Q →
            (0 <= limit)%Q →
            (delay_for (@retry_network U) random (1 + Z.of_nat i) drawn
             <= limit * (3 # 2))%Q)
    by (intros; by apply delay_for_le).
  split; [exact Hapi |]. split; [| split; [exact Hnetwork |]].
  - destruct (sleeps _) as [|d0 [|d1 [|d2 l]]]; simpl in Hn1; [| | | lia].
    + done.
    + destruct (Hd1 0%nat d0 eq_refl) as [n0 ->].
      pose proof (Hapi_le 0%nat n0 1%Q ltac:(by vm_compute) ltac:(by vm_compute)).
      unfold total. cbn [foldr].
      repeat match goal with
        | H : context [delay_for ?a ?r ?k ?n] |- _ =>
            generalize dependent (delay_for a r k n)
        end.
      intros; lra.
    + destruct (Hd1 0%nat d0 eq_refl) as [n0 ->].
      destruct (Hd1 1%nat d1 eq_refl) as [n1 ->].
      pose proof (Hapi_le 0%nat n0 1%Q ltac:(by vm_compute) ltac:(by vm_compute)).
      pose proof (Hapi_le 1%nat n1 2%Q ltac:(by vm_compute) ltac:(by vm_compute)).
      unfold total. cbn [foldr].
      repeat match goal with
        | H : context [delay_for ?a ?r ?k ?n] |- _ =>
            generalize dependent (delay_for a r k n)
        end.
      intros; lra.
  - change (Z.to_nat (max_attempts retry_network) - 1)%nat with 4%nat in Hn2.
    clear Hn1 Hd1.
    destruct (sleeps _) as [|d0 [|d1 [|d2 [|d3 [|d4 l]]]]]; simpl in Hn2;
      [| | | | | lia].
    + done.
    + destruct (Hd2 0%nat d0 eq_refl) as [n0 ->].
      pose proof (Hnetwork_le 0%nat n0 (1 # 2)%Q
                    ltac:(by vm_compute) ltac:(by vm_compute)).
      unfold total. cbn [foldr].
      repeat match goal with
        | H : context [delay_for ?a ?r ?k ?n] |- _ =>
            generalize dependent (delay_for a r k n)
        end.
      intros; lra.
    + destruct (Hd2 0%nat d0 eq_refl) as [n0 ->].
      destruct (Hd2 1%nat d1 eq_refl) as [n1 ->].
      pose proof (Hnetwork_le 0%nat n0 (1 # 2)%Q
                    ltac:(by vm_compute) ltac:(by vm_compute)).
      pose proof (Hnetwork_le 1%nat n1 1%Q
                    ltac:(by vm_compute) ltac:(by vm_compute)).
      unfold total. cbn [foldr].
      repeat match goal with
        | H : context [delay_for ?a ?r ?k ?n] |- _ =>
            generalize dependent (delay_for a r k n)
        end.
      intros; lra.
    + destruct (Hd2 0%nat d0 eq_refl) as [n0 ->].
      destruct (Hd2 1%nat d1 eq_refl) as [n1 ->].
      destruct (Hd2 2%nat d2 eq_refl) as [n2 ->].
      pose proof (Hnetwork_le 0%nat n0 (1 # 2)%Q
                    ltac:(by vm_compute) ltac:(by vm_compute)).
      pose proof (Hnetwork_le 1%nat n1 1%Q
                    ltac:(by vm_compute) ltac:(by vm_compute)).
      pose proof (Hnetwork_le 2%nat n2 2%Q
                    ltac:(by vm_compute) ltac:(by vm_compute)).
      unfold total. cbn [foldr].
      repeat match goal with
        | H : context [delay_for ?a ?r ?k ?n] |- _ =>
            generalize dependent (delay_for a r k n)
        end.
      intros; lra.
    + destruct (Hd2 0%nat d0 eq_refl) as [n0 ->].
      destruct (Hd2 1%nat d1 eq_refl) as [n1 ->].
      destruct (Hd2 2%nat d2 eq_refl) as [n2 ->].
      destruct (Hd2 3%nat d3 eq_refl) as [n3 ->].
      pose proof (Hnetwork_le 0%nat n0 (1 # 2)%Q
                    ltac:(by vm_compute) ltac:(by vm_compute)).
      pose proof (Hnetwork_le 1%nat n1 1%Q
                    ltac:(by vm_compute) ltac:(by vm_compute)).
      pose proof (Hnetwork_le 2%nat n2 2%Q
                    ltac:(by vm_compute) ltac:(by vm_compute)).
      pose proof (Hnetwork_le 3%nat n3 4%Q
                    ltac:(by vm_compute) ltac:(by vm_compute)).
      unfold total. cbn [foldr].
      repeat match goal with
        | H : context [delay_for ?a ?r ?k ?n] |- _ =>
            generalize dependent (delay_for a r k n)
        end.
      intros; lra.
Qed.
End Presets.

Section RetryRunsSamples.
Import Retry RetryMore.

Lemma with_callback_nonneg_delays : nonneg_delays Scenarios.with_callback.
Proof. repeat split; by vm_compute. Qed.

Lemma earlier_calls_failed_witness :
  calls (sync_wrapper Samples.three_attempts Samples.quarter Scenarios.flaky
           (State 0%nat 0%nat)).2 !! 0%nat
    = Some (1%Z, Some (Exn ValueError "Temporary error"))
  ∧ (1 < call_count
           (sync_wrapper Samples.three_attempts Samples.quarter
              Scenarios.flaky (State 0%nat 0%nat)).2)%nat
  ∧ ∃ e, Some (Exn ValueError "Temporary error") = Some e
      ∧ isinstance e (exceptions Samples.three_attempts) = true.
Proof.
  split; [reflexivity |]. split; [vm_compute; lia |].
  apply (earlier_calls_failed Samples.three_attempts Samples.quarter
           Scenarios.flaky (State 0%nat 0%nat) 0%nat 1%Z);
    [reflexivity | vm_compute; lia].
Defined.

Lemma returned_value_is_the_targets_witness :
  ∃ st' evs,
    sync_wrapper Samples.three_attempts Samples.quarter Scenarios.flaky
      (State 0%nat 0%nat) = (Returned (Some "success"), st', evs)
    ∧ ∃ u k, Scenarios.flaky u = (Returned "success", user st')
        ∧ last (calls evs) = Some (k, None).
Proof.
  eexists _, _. split; [reflexivity |].
  apply (returned_value_is_the_targets Samples.three_attempts Samples.quarter
           Scenarios.flaky (State 0%nat 0%nat)).
  reflexivity.
Defined.


Lemma sleeps_between_calls_witness :
  unit_interval Samples.quarter
  ∧ length (sleeps (sync_wrapper Samples.three_attempts_jittered
                      Samples.quarter Samples.always_failing
                      (State 0%nat 0%nat)).2) = 2%nat
  ∧ (total (sleeps (sync_wrapper Samples.three_attempts_jittered
                      Samples.quarter Samples.always_failing
                      (State 0%nat 0%nat)).2)
     <= inject_Z (3 - 1) * (60 * (3 # 2)))%Q.
Proof.
  split; [exact quarter_unit_interval |].
  destruct (sleeps_between_calls Samples.three_attempts_jittered
              Samples.quarter Samples.always_failing (State 0%nat 0%nat)
              quarter_unit_interval) as (Hcount & _ & Htotal).
  split; [exact Hcount |].
  apply Htotal; by vm_compute.
Defined.

Lemma sleeps_never_shrink_witness :
  jitter Samples.three_attempts = false
  ∧ (0 <= base_delay Samples.three_attempts)%Q
  ∧ (1 <= exponential_base Samples.three_attempts)%Q
  ∧ ∃ d d',
      sleeps (sync_wrapper Samples.three_attempts Samples.quarter
                Samples.always_failing (State 0%nat 0%nat)).2 !! 0%nat
        = Some d
      ∧ sleeps (sync_wrapper Samples.three_attempts Samples.quarter
                  Samples.always_failing (State 0%nat 0%nat)).2 !! 1%nat
        = Some d'
      ∧ (d <= d')%Q ∧ (d' <= max_delay Samples.three_attempts)%Q.
Proof.
  split; [reflexivity |]. split; [by vm_compute |]. split; [by vm_compute |].
  eexists _, _. split; [reflexivity |]. split; [reflexivity |].
  apply (sleeps_never_shrink Samples.three_attempts Samples.quarter
           Samples.always_failing (State 0%nat 0%nat) 0%nat 1%nat);
    [reflexivity | by vm_compute | by vm_compute | lia | reflexivity
    | reflexivity].
Defined.




Lemma preset_budgets_witness :
  unit_interval Samples.quarter
  ∧ (call_count (sync_wrapper retry_network Samples.quarter
                   Samples.always_failing (State 0%nat 0%nat)).2 ≤ 5)%nat
  ∧ (total (sleeps (sync_wrapper retry_api Samples.quarter
                      Samples.always_failing (State 0%nat 0%nat)).2)
     <= 9 # 2)%Q.
Proof.
  split; [exact quarter_unit_interval |].
  destruct (preset_budgets Samples.quarter Samples.always_failing
              (State 0%nat 0%nat) quarter_unit_interval)
    as (_ & Hapi & Hnetwork & _).
  by split.
Defined.
End RetryRunsSamples.

(** ** More properties of the registry and of the dispatch path *)

Section RegistryMore.
Import Tools.

(** X12: after [clear] no name is registered: [get] finds nothing and
    [execute] answers that the tool is not found, whatever was registered
    before; the trace is kept. *)
Theorem clear_forgets_every_tool (w : world) (name : string) (kw : kwargs) :
  let cleared := (clear w).2 in
  get name cleared = (Returned None, cleared)
  ∧ (execute name kw cleared).1
      = Returned ("Error: Tool '" +:+ name +:+ "' not found.")
  ∧ size (_tools cleared) = 0%nat
  ∧ trace cleared = trace w.
Proof.
  intros cleared. subst cleared. unfold clear, get. simpl.
  split; [by rewrite lookup_empty |]. split; [| done].
  rewrite execute_unfold. simpl. by rewrite lookup_empty.
Qed.

(** X13: registering under a name that is not yet taken makes the
    registry one name larger: the new name is found with the descriptor
    just built, every other name answers as before, and nothing is
    logged. *)
Theorem register_fresh_name (w : world) (name description : string)
    (parameters : option (list ToolParameter))
    (func : kwargs → result string) :
  _tools w !! name = None →
  let registered := (register name description parameters func w).2 in
  size (_tools registered) = S (size (_tools w))
  ∧ dom (_tools registered) = ({[name]} ∪ dom (_tools w) : gset string)
  ∧ (_tools registered !! name
     = Some {| tool_name := name; tool_description := description;
               tool_function := func;
               tool_parameters := default [] parameters |})
  ∧ (∀ other kw, other ≠ name →
       (execute other kw registered).1 = (execute other kw w).1)
  ∧ trace registered = trace w.
Proof.
  intros Hfresh registered. subst registered. unfold register. simpl.
  split; [by apply map_size_insert_None |].
  split; [apply dom_insert_L |]. split; [apply lookup_insert_eq |].
  split; [| done]. intros other kw Hother.
  rewrite !execute_unfold. simpl.
  rewrite lookup_insert_ne by (by intros ->).
  destruct (_tools w !! other) as [tool|]; [| done].
  by destruct (Tool_execute tool kw).
Qed.

Lemma register_fresh_name_witness :
  _tools Samples.started !! "rm" = None
  ∧ size (_tools (register "rm" "Remove a file." None Samples.ls_v2
                    Samples.started).2)
    = S (size (_tools Samples.started))
  ∧ (execute "ls" []
       (register "rm" "Remove a file." None Samples.ls_v2
          Samples.started).2).1
    = (execute "ls" [] Samples.started).1.
Proof.
  assert (H : _tools Samples.started !! "rm" = None) by by vm_compute.
  destruct (register_fresh_name Samples.started "rm" "Remove a file." None
              Samples.ls_v2 H) as (Hsize & _ & _ & Hother & _).
  split; [exact H |]. split; [exact Hsize |]. by apply Hother.
Defined.

Section WithLoader.
Variable json_loads : string → result pyvalue.

(** X14: a mapping of arguments with no key [self] or [name] reaches
    [execute] unchanged, under the name of the request; a request without
    arguments is executed with none, and a request without a name looks up
    the empty name. *)
Theorem dispatch_passes_mapping (w : world) (name : option string)
    (d : kwargs) :
  "self" ∉ d.*1 → "name" ∉ d.*1 →
  execute_tool_call json_loads (ToolCall name (Some (PyDict d))) w
    = execute (default "" name) d w
  ∧ execute_tool_call json_loads (ToolCall name None) w
    = execute (default "" name) [] w
  ∧ execute_tool_call json_loads (ToolCall None (Some (PyDict d))) w
    = execute "" d w.
Proof.
  intros Hself Hname. unfold execute_tool_call.
  cbn -[unpack_for_execute execute].
  by rewrite (unpack_for_execute_ok d Hself Hname).
Qed.

(** X15: arguments handed over as a JSON document are treated as the
    value that the document decodes to: the request with the string and
    the request with the decoded value have the same outcome and leave the
    same trace.  (A document that decodes to a string is the exception:
    it is not decoded a second time.) *)
Theorem dispatch_decodes_once (w : world) (name : option string)
    (s : string) (v : pyvalue) :
  json_loads s = Returned v →
  (∀ s', v ≠ PyStr s') →
  execute_tool_call json_loads (ToolCall name (Some (PyStr s))) w
    = execute_tool_call json_loads (ToolCall name (Some v)) w.
Proof.
  intros Hloads Hv. unfold execute_tool_call. simpl. rewrite Hloads.
  destruct v; try done. by destruct (Hv s0).
Qed.

(** X16: a failure leaves [execute_tool_call] in two ways only: as the
    [TypeError] of the call of [execute], or as a failure of [json.loads]
    that is no [JSONDecodeError]; in both cases before anything was looked
    up, entered or logged. *)
Theorem dispatch_escapes (w : world) (tc : tool_call) (e : exn) (w' : world) :
  execute_tool_call json_loads tc w = (Raised e, w') →
  w' = w
  ∧ (exc_type e = TypeError
     ∨ ∃ s, tc_arguments tc = Some (PyStr s)
         ∧ json_loads s = Raised e
         ∧ isinstance e [JSONDecodeError] = false).
Proof.
  unfold execute_tool_call.
  assert (Hcall : ∀ arguments,
            match unpack_for_execute arguments with
            | Returned kw => execute (default "" (tc_name tc)) kw
            | Raised e0 => raise e0
            end w = (Raised e, w') →
            w' = w ∧ exc_type e = TypeError).
  { intros arguments. destruct (unpack_for_execute arguments) as [kw|e0] eqn:Hu.
    - intros Hrun.
      destruct (execute_returns (default "" (tc_name tc)) kw w) as [answer Ha].
      rewrite Hrun in Ha. discriminate.
    - unfold raise. intros [= <- <-]. split; [done |].
      unfold unpack_for_execute in Hu. by repeat case_match; simplify_eq. }
  destruct (tc_arguments tc) as [arguments|] eqn:Harguments;
    cbn -[unpack_for_execute execute]; cycle 1.
  { intros Hrun. destruct (Hcall (PyDict []) Hrun) as [-> Htype]. by auto. }
  destruct arguments as [|b|z|q|s|l|d];
    try (intros Hrun;
         match type of Hrun with
         | context [unpack_for_execute ?a] =>
             destruct (Hcall a Hrun) as [-> Htype]; by auto
         end).
  destruct (json_loads s) as [v|e0] eqn:Hloads.
  - intros Hrun. destruct (Hcall v Hrun) as [-> Htype]. by auto.
  - destruct (isinstance e0 [JSONDecodeError]) eqn:Hkind; [done |].
    unfold raise. intros [= <- <-]. split; [done |]. right. by exists s.
Qed.
End WithLoader.

Lemma dispatch_passes_mapping_witness :
  ("self" ∉ [("path", PyStr ".")].*1)
  ∧ ("name" ∉ [("path", PyStr ".")].*1)
  ∧ (execute_tool_call Samples.loads
       (ToolCall (Some "ls") (Some (PyDict [("path", PyStr ".")])))
       Samples.started).1
    = Returned "first".
Proof.
  assert (Hself : "self" ∉ [("path", PyStr ".")].*1)
    by (simpl; rewrite list_elem_of_singleton; discriminate).
  assert (Hname : "name" ∉ [("path", PyStr ".")].*1)
    by (simpl; rewrite list_elem_of_singleton; discriminate).
  split; [exact Hself |]. split; [exact Hname |].
  rewrite (proj1 (dispatch_passes_mapping Samples.loads Samples.started
                    (Some "ls") _ Hself Hname)).
  by vm_compute.
Defined.

Lemma dispatch_decodes_once_witness :
  Samples.loads "{}" = Returned (PyDict [])
  ∧ (∀ s', PyDict [] ≠ PyStr s')
  ∧ execute_tool_call Samples.loads
      (ToolCall (Some "ls") (Some (PyStr "{}"))) Samples.started
    = execute_tool_call Samples.loads
        (ToolCall (Some "ls") (Some (PyDict []))) Samples.started.
Proof.
  split; [reflexivity |]. split; [discriminate |].
  apply dispatch_decodes_once; [reflexivity | discriminate].
Defined.

Lemma dispatch_escapes_witness :
  execute_tool_call Samples.loads
    (ToolCall (Some "ls") (Some (PyStr "[1]"))) Samples.started
  = (Raised (Exn TypeError
       "tools.ToolRegistry.execute() argument after ** must be a mapping, not list"),
     Samples.started)
  ∧ Samples.started = Samples.started
  ∧ (exc_type (Exn TypeError
       "tools.ToolRegistry.execute() argument after ** must be a mapping, not list")
     = TypeError
     ∨ ∃ s, Some (PyStr "[1]") = Some (PyStr s)
          ∧ Samples.loads s
            = Raised (Exn TypeError
                "tools.ToolRegistry.execute() argument after ** must be a mapping, not list")
          ∧ isinstance (Exn TypeError
              "tools.ToolRegistry.execute() argument after ** must be a mapping, not list")
              [JSONDecodeError] = false).
Proof.
  split; [reflexivity |].
  exact (dispatch_escapes Samples.loads Samples.started
           (ToolCall (Some "ls") (Some (PyStr "[1]"))) _ _ eq_refl).
Defined.
End RegistryMore.

(** ** Properties of the operations on [str] *)

Section StrProperties.
Import Str.

Lemma contains_empty (s : string) : contains "" s = true.
Proof. by destruct s. Qed.

Lemma prefix_append_left (sub a b : string) :
  String.prefix sub a = true → String.prefix sub (a +:+ b) = true.
Proof.
  revert a. induction sub as [|c sub IH]; intros a; [by destruct (a +:+ b) |].
  destruct a as [|c' a]; simpl; [done |].
  destruct (Ascii.ascii_dec c c'); [apply IH | done].
Qed.

Lemma contains_append_left (sub a b : string) :
  contains sub a = true → contains sub (a +:+ b) = true.
Proof.
  induction a as [|c a IH].
  - simpl. rewrite orb_false_r. destruct sub; [| done]. by destruct b.
  - change (contains sub (String c a) = true
            → contains sub (String c (a +:+ b)) = true).
    simpl. rewrite !orb_true_iff. intros [Hprefix | Hlater].
    + left. by apply (prefix_append_left _ (String c a)).
    + right. by apply IH.
Qed.

Lemma contains_join (sep sub part : string) (parts : list string) :
  part ∈ parts → contains sub part = true →
  contains sub (join sep parts) = true.
Proof.
  intros Hin Hsub. induction parts as [|p parts IH]; [by inversion Hin |].
  apply elem_of_cons in Hin as [<- | Hin].
  - destruct parts; simpl; [done |]. by apply contains_append_left.
  - specialize (IH Hin). destruct parts as [|p' parts]; [by inversion Hin |].
    change (contains sub (p +:+ sep +:+ join sep (p' :: parts)) = true).
    by do 2 apply contains_append_right.
Qed.

Lemma append_assoc (a b c : string) : (a +:+ b) +:+ c = a +:+ (b +:+ c).
Proof.
  induction a as [|x a IH]; [done |].
  change (String x ((a +:+ b) +:+ c) = String x (a +:+ (b +:+ c))).
  by rewrite IH.
Qed.

Lemma join_snoc (sep : string) (parts : list string) (part : string) :
  ∃ before, join sep (parts ++ [part]) = before +:+ part.
Proof.
  induction parts as [|p parts [before IH]]; [by exists "" |].
  exists (p +:+ sep +:+ before).
  change (join sep (p :: (parts ++ [part])) = (p +:+ sep +:+ before) +:+ part).
  destruct (parts ++ [part]) as [|p' rest] eqn:Hrest;
    [by destruct parts |].
  change (p +:+ sep +:+ join sep (p' :: rest)
          = (p +:+ sep +:+ before) +:+ part).
  by rewrite IH, !append_assoc.
Qed.

End StrProperties.

(** ** Properties of the registry in registration order *)

Section ListingProperties.
Import Tools Str Listing.

Lemma setitem_lookup_view {A : Type} (k : string) (v : A)
    (d : list (string * A)) :
  (list_to_map (setitem k v d) : gmap string A) = <[k := v]> (list_to_map d).
Proof.
  induction d as [|[k' v'] d IH]; simpl; [done |].
  destruct (String.eqb_spec k k') as [-> | Hne]; simpl.
  - by rewrite insert_insert_eq.
  - rewrite IH. by apply insert_insert_ne.
Qed.

Lemma setitem_fresh {A : Type} (k : string) (v : A) (d : list (string * A)) :
  k ∉ d.*1 → setitem k v d = d ++ [(k, v)].
Proof.
  induction d as [|[k' v'] d IH]; simpl; [done |].
  rewrite not_elem_of_cons. intros [Hne Hd].
  destruct (String.eqb_spec k k'); [done |]. by rewrite IH.
Qed.

Lemma setitem_present {A : Type} (k : string) (v : A)
    (d : list (string * A)) :
  k ∈ d.*1 →
  (setitem k v d).*1 = d.*1
  ∧ ∃ i, d.*1 !! i = Some k ∧ (setitem k v d).*2 = <[i := v]> (d.*2).
Proof.
  induction d as [|[k' v'] d IH]; csimpl; [by rewrite elem_of_nil |].
  intros Hin. destruct (String.eqb_spec k k') as [-> | Hne]; csimpl.
  - split; [done |]. by exists 0%nat.
  - apply elem_of_cons in Hin as [? | Hin]; [done |].
    destruct (IH Hin) as [Hkeys (i & Hi & Hvalues)].
    split; [by rewrite Hkeys |]. exists (S i). csimpl. by rewrite Hvalues.
Qed.

Lemma setitem_keys {A : Type} (k : string) (v : A) (d : list (string * A)) :
  (setitem k v d).*1 = if bool_decide (k ∈ d.*1) then d.*1 else d.*1 ++ [k].
Proof.
  case_bool_decide as Hin.
  - by apply setitem_present.
  - rewrite setitem_fresh by done. by rewrite fmap_app.
Qed.

Lemma setitem_elem_of {A : Type} (k : string) (v : A)
    (d : list (string * A)) (k' : string) (v' : A) :
  (k', v') ∈ setitem k v d → (k' = k ∧ v' = v) ∨ (k', v') ∈ d.
Proof.
  induction d as [|[k0 v0] d IH]; simpl.
  - rewrite list_elem_of_singleton. intros [= -> ->]. by left.
  - destruct (String.eqb_spec k k0) as [-> | Hne];
      rewrite !elem_of_cons.
    + intros [[= -> ->] | Hin]; [by left | by right; right].
    + intros [Heq | Hin]; [by right; left |].
      destruct (IH Hin) as [? | ?]; [by left | by right; right].
Qed.

(** What every reachable registry satisfies: no key twice, and every
    descriptor stored under its own name. *)
Lemma run_invariant (ss : list statement) (r : registry) :
  NoDup r.*1 → (∀ k t, (k, t) ∈ r → tool_name t = k) →
  NoDup (foldl run r ss).*1
  ∧ (∀ k t, (k, t) ∈ foldl run r ss → tool_name t = k).
Proof.
  revert r. induction ss as [|s ss IH]; intros r Hnodup Hkeyed; [done |].
  simpl. apply IH.
  - destruct s as [name description parameters func|]; simpl;
      [| by apply NoDup_nil].
    rewrite setitem_keys. case_bool_decide as Hin; [done |].
    apply NoDup_app. split; [done |]. split; [| apply NoDup_singleton].
    intros k Hk. rewrite list_elem_of_singleton. by intros ->.
  - destruct s as [name description parameters func|]; simpl;
      [| by intros k t; rewrite elem_of_nil].
    intros k t Hin. apply setitem_elem_of in Hin as [[-> ->] | Hin];
      [done | by apply Hkeyed].
Qed.

Lemma run_lookup_view (ss : list statement) (w : world) (r : registry) :
  _tools w = list_to_map r →
  _tools (foldl run_world w ss) = list_to_map (foldl run r ss)
  ∧ trace (foldl run_world w ss) = trace w.
Proof.
  revert w r. induction ss as [|s ss IH]; intros w r Hview; [done |].
  simpl.
  destruct (IH (run_world w s) (run r s)) as [Htools Htrace].
  - destruct s as [name description parameters func|]; simpl; [| done].
    by rewrite setitem_lookup_view, Hview.
  - split; [exact Htools |]. rewrite Htrace. by destruct s.
Qed.

(** X17: the registry read in registration order and the registry read
    by name are one dict: after any sequence of decorated definitions and
    [clear]s, looking a name up in the one gives what it gives in the
    other, and no statement of the sequence logs anything. *)
Theorem listing_is_the_lookup_view (ss : list statement) (tr : list event)
    (name : string) :
  let r := foldl run [] ss in
  let w := foldl run_world (World ∅ tr) ss in
  (Tools.get name w).1 = Returned (Listing.get name r)
  ∧ trace w = tr.
Proof.
  intros r w.
  pose proof (run_lookup_view ss (World ∅ tr) []) as Hview.
  destruct (Hview eq_refl) as [Htools Htrace]. clear Hview.
  subst r w. split; [| exact Htrace].
  unfold Tools.get, Listing.get. cbn [fst]. f_equal.
  rewrite Htools. generalize (foldl run [] ss). clear. intros r.
  induction r as [|[k t] r IH]; simpl; [done |].
  destruct (String.eqb_spec name k) as [-> | Hne]; simpl.
  - by rewrite lookup_insert_eq.
  - by rewrite lookup_insert_ne.
Qed.

(** X18: [list_tools] lists every registered name once: after any
    sequence of decorated definitions and [clear]s the listed descriptors
    have distinct names, there are as many as the registry has names, and
    a descriptor is listed exactly when [get] finds it under its own
    name. *)
Theorem list_tools_one_per_name (ss : list statement) (tr : list event) :
  let r := foldl run [] ss in
  let w := foldl run_world (World ∅ tr) ss in
  NoDup (tool_name <$> list_tools r)
  ∧ length (list_tools r) = size (_tools w)
  ∧ (∀ t, t ∈ list_tools r
          ↔ (Tools.get (tool_name t) w).1 = Returned (Some t)).
Proof.
  intros r w.
  destruct (run_invariant ss [] (NoDup_nil_2)) as [Hnodup Hkeyed];
    [by intros k t; rewrite elem_of_nil |].
  pose proof (run_lookup_view ss (World ∅ tr) []) as Hview.
  destruct (Hview eq_refl) as [Htools _]. clear Hview.
  subst w. fold r in Hnodup, Hkeyed, Htools.
  assert (Hnames : tool_name <$> list_tools r = r.*1).
  { unfold list_tools. clear -Hkeyed.
    induction r as [|[k t] r IH]; simpl; [done |].
    rewrite (Hkeyed k t) by apply list_elem_of_here.
    f_equal. apply IH. intros k' t' Hin. apply Hkeyed.
    by apply list_elem_of_further. }
  split; [by rewrite Hnames |]. split.
  - rewrite Htools, map_size_list_to_map by done.
    unfold list_tools. by rewrite length_fmap.
  - intros t. unfold Tools.get. simpl. rewrite Htools. split.
    + unfold list_tools. rewrite list_elem_of_fmap.
      intros ([k t'] & -> & Hin). simpl.
      rewrite (Hkeyed k t' Hin). f_equal.
      by apply elem_of_list_to_map_1.
    + intros [= Hlookup]. apply elem_of_list_to_map_2 in Hlookup.
      unfold list_tools. rewrite list_elem_of_fmap. by eexists (_, _).
Qed.

(** X19: registering keeps the order of registration: a new name goes to
    the end of the listing, and a name that is registered again keeps its
    place, with the new descriptor where the old one stood and every other
    entry untouched. *)
Theorem register_keeps_the_place (r : registry) (name description : string)
    (parameters : option (list ToolParameter))
    (func : kwargs → result string) :
  let tool := {| tool_name := name; tool_description := description;
                 tool_function := func;
                 tool_parameters := default [] parameters |} in
  let r' := (register name description parameters func r).2 in
  (name ∉ r.*1 → list_tools r' = list_tools r ++ [tool])
  ∧ (name ∈ r.*1 →
     r'.*1 = r.*1
     ∧ ∃ i, r.*1 !! i = Some name
          ∧ list_tools r' = <[i := tool]> (list_tools r)).
Proof.
  intros tool r'. split.
  - intros Hfresh. unfold r', register, list_tools. simpl.
    rewrite setitem_fresh by done. by rewrite fmap_app.
  - intros Hin. by apply setitem_present.
Qed.

Lemma describe_keeps (lines : list string) (t : Tool) (line : string) :
  line ∈ lines → line ∈ describe lines t.
Proof.
  intros Hin. unfold describe. apply elem_of_app. left.
  assert (Hfold : ∀ params acc f, line ∈ acc →
            line ∈ foldl (λ lines (param : ToolParameter), lines ++ [f param])
                     acc params).
  { induction params as [|p params IH]; intros acc f Hacc; [done |].
    simpl. apply IH. apply elem_of_app. by left. }
  apply Hfold. apply elem_of_app. by left.
Qed.

Lemma describe_parameters (f : ToolParameter → string)
    (params : list ToolParameter) (acc : list string) :
  foldl (λ lines param, lines ++ [f param]) acc params = acc ++ (f <$> params).
Proof.
  revert acc. induction params as [|p params IH]; intros acc; simpl.
  - by rewrite app_nil_r.
  - rewrite IH. by rewrite <- app_assoc.
Qed.

Lemma foldl_describe_keeps (tools : list Tool) (lines : list string)
    (line : string) :
  line ∈ lines → line ∈ foldl describe lines tools.
Proof.
  revert lines. induction tools as [|t tools IH]; intros lines Hin; [done |].
  simpl. apply IH. by apply describe_keeps.
Qed.

Lemma foldl_describe_tool (tools : list Tool) (lines : list string)
    (t : Tool) :
  t ∈ tools →
  ∀ line, line ∈ describe [] t → line ∈ foldl describe lines tools.
Proof.
  revert lines. induction tools as [|t' tools IH]; intros lines Hin line Hline;
    [by inversion Hin |].
  simpl. apply elem_of_cons in Hin as [<- | Hin]; [| by apply IH].
  apply foldl_describe_keeps. revert Hline. unfold describe.
  rewrite !describe_parameters. rewrite !elem_of_app.
  intros [[[Hnil | Hhead] | Hparam] | Hlast]; [by inversion Hnil | | |].
  - left. left. right. exact Hhead.
  - left. by right.
  - by right.
Qed.

(** X20: the description of the registry opens with its heading and
    shows every listed tool with its name and description, and every
    parameter of a listed tool with its name, its type, its description
    and, when it is required, the marker for it. *)
Theorem descriptions_show_every_tool (r : registry) (t : Tool) :
  t ∈ list_tools r →
  let text := get_tool_descriptions r in
  String.prefix "Available tools:" text = true
  ∧ contains ("**" +:+ tool_name t +:+ "**: " +:+ tool_description t) text
    = true
  ∧ (∀ p, p ∈ tool_parameters t →
       contains ("`" +:+ param_name p +:+ "` (" +:+ param_type p +:+ ")"
                   +:+ (if param_required p then " (required)" else "")
                   +:+ ": " +:+ param_description p) text = true).
Proof.
  intros Hin text. subst text. unfold get_tool_descriptions.
  set (lines := foldl describe _ _).
  assert (Hhead : ∃ rest, lines = ("Available tools:" +:+ newline) :: rest).
  { subst lines. generalize (list_tools r). intros tools.
    assert (Hgen : ∀ first acc, ∃ rest,
              foldl describe (first :: acc) tools = first :: rest).
    { induction tools as [|t' tools IH]; intros first acc; [by eexists |].
      simpl. unfold describe at 2. rewrite describe_parameters.
      simpl. apply IH. }
    apply Hgen. }
  split; [| split].
  - destruct Hhead as [rest ->]. by destruct rest.
  - apply (contains_join _ _
             ("‚Ä¢ **" +:+ tool_name t +:+ "**: " +:+ tool_description t)).
    + apply foldl_describe_tool with t; [exact Hin |].
      unfold describe. rewrite describe_parameters. simpl.
      apply list_elem_of_here.
    + exact (contains_append_right _ "‚Ä¢ " _ (contains_self _)).
  - intros p Hp.
    apply (contains_join _ _
             ("  - `" +:+ param_name p +:+ "` (" +:+ param_type p +:+ ")"
                +:+ (if param_required p then " (required)" else "")
                +:+ ": " +:+ param_description p)).
    + apply foldl_describe_tool with t; [exact Hin |].
      unfold describe. rewrite describe_parameters. simpl.
      apply list_elem_of_further. apply elem_of_app. left.
      apply list_elem_of_fmap. by exists p.
    + exact (contains_append_right _ "  - " _ (contains_self _)).
Qed.

End ListingProperties.

(** ** Properties of the tool bodies *)

Section BodiesProperties.
Import Str Bodies.

Section Command.
Variable Path : Type.
Variable Path_ : string → Path.
Variable is_absolute : Path → bool.
Variable joinpath : Path → Path → Path.
Variable get_config : result (Config Path).
Variable subprocess_run : string → Path → Z → result CompletedProcess.

Abbreviation run_command :=
  (run_command Path Path_ is_absolute joinpath get_config subprocess_run).
Abbreviation working_dir := (working_dir Path Path_ is_absolute joinpath).

(** X21: [run_command] answers with a string whatever the configuration
    and the subprocess do: no failure leaves it. *)
Theorem run_command_never_raises (command : string) (cwd : option string)
    (timeout : Z) :
  ∃ answer, run_command command cwd timeout = Returned answer.
Proof.
  unfold Bodies.run_command.
  assert (Hhandler : ∀ e, ∃ answer,
            (if isinstance e [TimeoutExpired] then
               Returned ("Error: Command timed out after " +:+ pretty timeout
                           +:+ " seconds.")
             else if isinstance e [Exception] then
               Returned ("Error executing command: " +:+ exc_str e)
             else Raised e) = Returned answer).
  { intros e. destruct (isinstance e [TimeoutExpired]); [by eexists |].
    rewrite isinstance_Exception. by eexists. }
  destruct get_config as [config|e]; [| apply Hhandler].
  destruct (subprocess_run command _ timeout) as [result|e];
    [| apply Hhandler].
  by repeat case_match; eexists.
Qed.

Lemma truthy_false (s : string) : truthy s = false ↔ s = "".
Proof. by destruct s. Qed.

(** X22: the message of a silent success is given for a silent success
    only: [run_command] answers with it exactly when the subprocess
    completed with exit code zero and wrote nothing, neither to the
    standard output nor to the standard error. *)
Theorem run_command_silent_success (command : string) (cwd : option string)
    (timeout : Z) :
  run_command command cwd timeout
    = Returned "Command executed successfully (no output)."
  ↔ ∃ config result,
      get_config = Returned config
      ∧ subprocess_run command (working_dir config cwd) timeout
        = Returned result
      ∧ stdout result = "" ∧ stderr result = "" ∧ returncode result = 0%Z.
Proof.
  unfold Bodies.run_command.
  assert (Hhandler : ∀ e,
            (if isinstance e [TimeoutExpired] then
               Returned ("Error: Command timed out after " +:+ pretty timeout
                           +:+ " seconds.")
             else if isinstance e [Exception] then
               Returned ("Error executing command: " +:+ exc_str e)
             else Raised e)
            ≠ Returned "Command executed successfully (no output).").
  { intros e. destruct (isinstance e [TimeoutExpired]); [done |].
    by destruct (isinstance e [Exception]). }
  split.
  - destruct get_config as [config|e]; [| by intros ?%Hhandler].
    destruct (subprocess_run command _ timeout) as [result|e] eqn:Hrun;
      [| by intros ?%Hhandler].
    destruct (truthy (stdout result)) eqn:Hout;
      [by destruct (truthy (stderr result)), (returncode result =? 0)%Z |].
    destruct (truthy (stderr result)) eqn:Herr;
      [by destruct (returncode result =? 0)%Z |].
    destruct (returncode result =? 0)%Z eqn:Hcode; [| done].
    intros _. exists config, result.
    apply truthy_false in Hout, Herr. apply Z.eqb_eq in Hcode. done.
  - intros (config & result & -> & -> & Hout & Herr & Hcode).
    by rewrite Hout, Herr, Hcode.
Qed.

(** X23: nothing of a completed process is dropped: the answer shows
    what it wrote to the standard output and to the standard error, and
    ends with the exit code when that is not zero. *)
Theorem run_command_shows_the_process (command : string)
    (cwd : option string) (timeout : Z) (config : Config Path)
    (result : CompletedProcess) :
  get_config = Returned config →
  subprocess_run command (working_dir config cwd) timeout = Returned result →
  ∃ answer,
    run_command command cwd timeout = Returned answer
    ∧ contains (stdout result) answer = true
    ∧ contains (stderr result) answer = true
    ∧ (returncode result ≠ 0%Z →
       ∃ before,
         answer = before +:+ "Exit code: " +:+ pretty (returncode result)).
Proof.
  intros Hconfig Hrun. unfold Bodies.run_command. rewrite Hconfig, Hrun.
  destruct (stdout result) as [|c out] eqn:Hout;
    destruct (stderr result) as [|c' err] eqn:Herr;
    destruct (Z.eqb_spec (returncode result) 0) as [Hcode|Hcode];
    cbn [truthy negb app join]; eexists; (split; [reflexivity |]).
  - done.
  - split; [| split]; [apply contains_empty.. |]. intros _. by exists "".
  - split; [| split]; [apply contains_empty | | done].
    apply (contains_append_right _ ("STDERR:" +:+ newline)), contains_self.
  - split; [| split]; [apply contains_empty | |].
    + apply (contains_append _ ("STDERR:" +:+ newline)).
    + intros _. apply (join_snoc _ [_]).
  - split; [| split]; [| apply contains_empty | done].
    apply (contains_append_right _ ("STDOUT:" +:+ newline)), contains_self.
  - split; [| split]; [| apply contains_empty |].
    + apply (contains_append _ ("STDOUT:" +:+ newline)).
    + intros _. apply (join_snoc _ [_]).
  - split; [| split]; [| | done].
    + apply contains_append_left.
      apply (contains_append_right _ ("STDOUT:" +:+ newline)), contains_self.
    + do 2 apply contains_append_right.
      apply (contains_append_right _ ("STDERR:" +:+ newline)), contains_self.
  - split; [| split].
    + apply contains_append_left.
      apply (contains_append_right _ ("STDOUT:" +:+ newline)), contains_self.
    + do 2 apply contains_append_right. apply contains_append_left.
      apply (contains_append_right _ ("STDERR:" +:+ newline)), contains_self.
    + intros _. apply (join_snoc _ [_; _]).
Qed.
End Command.

End BodiesProperties.

Section FileProperties.
Import Str Bodies.

Section Range.
Variable rstrip : string → string.

Lemma numbered_lines_unfold (lines : list string)
    (start_line end_line : option Z) :
  let len := Z.of_nat (length lines) in
  let start_idx := Z.max 0 (default 1 start_line - 1)%Z in
  let end_idx :=
    match end_line with
    | Some end_line =>
        if (end_line =? 0)%Z then len else Z.min end_line len
    | None => len
    end in
  numbered_lines rstrip lines start_line end_line
  = (λ '(i, line), format_4d i +:+ " | " +:+ rstrip line)
      <$> enumerate (slice lines start_idx end_idx) (start_idx + 1).
Proof.
  intros len start_idx end_idx. unfold numbered_lines.
  assert (Hloop : ∀ (f : Z * string → string) l acc,
            foldl (λ numbered_lines '(i, line), numbered_lines ++ [f (i, line)])
              acc l = acc ++ (f <$> l)).
  { intros f l. induction l as [|[i line] l IH]; intros acc; simpl.
    - by rewrite app_nil_r.
    - rewrite IH. by rewrite <- app_assoc. }
  rewrite (Hloop (λ '(i, line), format_4d i +:+ " | " +:+ rstrip line)).
  simpl.
  match goal with
  | |- _ <$> enumerate (slice lines ?a ?b) _ = _ =>
      replace a with start_idx
        by (subst start_idx; destruct start_line as [s|]; simpl;
            repeat case_match; lia);
      replace b with end_idx
        by (subst end_idx len; destruct end_line as [e|]; simpl;
            repeat case_match; lia)
  end.
  reflexivity.
Qed.

Lemma slice_lookup {A : Type} (l : list A) (start stop : Z) (k : nat)
    (x : A) :
  (0 ≤ start)%Z →
  slice l start stop !! k = Some x →
  l !! (Z.to_nat start + k)%nat = Some x.
Proof.
  intros Hstart. unfold slice, slice_index.
  rewrite (proj2 (Z.ltb_ge start 0)) by done.
  intros [Hlookup _]%lookup_take_Some. rewrite lookup_drop in Hlookup.
  destruct (decide (start ≤ Z.of_nat (length l))%Z) as [Hle|Hgt].
  - by rewrite Z.min_l in Hlookup.
  - apply lookup_lt_Some in Hlookup. lia.
Qed.

Lemma slice_length {A : Type} (l : list A) (start stop : Z) :
  (0 ≤ start ≤ stop)%Z → (stop ≤ Z.of_nat (length l))%Z →
  length (slice l start stop) = Z.to_nat (stop - start).
Proof.
  intros Hstart Hstop. unfold slice, slice_index.
  rewrite !(proj2 (Z.ltb_ge _ 0)) by lia.
  rewrite !Z.min_l by lia. rewrite length_take, length_drop. lia.
Qed.

Lemma enumerate_lookup {A : Type} (l : list A) (start : Z) (k : nat)
    (i : Z) (x : A) :
  enumerate l start !! k = Some (i, x) →
  i = (start + Z.of_nat k)%Z ∧ l !! k = Some x.
Proof.
  unfold enumerate. rewrite lookup_zip_Some, lookup_seqZ.
  by intros [[-> _] Hx].
Qed.




End Range.
Lemma count_append (c : Ascii.ascii) (a b : string) :
  count c (a +:+ b) = (count c a + count c b)%Z.
Proof.
  induction a as [|x a IH]; [done |].
  change (count c (String x (a +:+ b))
          = (count c (String x a) + count c b)%Z).
  simpl. rewrite IH. lia.
Qed.

Lemma count_nonneg (c : Ascii.ascii) (s : string) : (0 ≤ count c s)%Z.
Proof. induction s as [|x s IH]; simpl; [done |]. case_match; lia. Qed.

Lemma endswith_append (c : Ascii.ascii) (a b : string) :
  b ≠ "" → endswith c (a +:+ b) = endswith c b.
Proof.
  intros Hb. induction a as [|x a IH]; [done |].
  change (endswith c (String x (a +:+ b)) = endswith c b).
  simpl. destruct (a +:+ b) eqn:Hab; [| exact IH].
  destruct a; [done | discriminate].
Qed.

Lemma endswith_count (c : Ascii.ascii) (s : string) :
  endswith c s = true → (1 ≤ count c s)%Z.
Proof.
  induction s as [|x s IH]; [done |]. simpl. destruct s as [|y s].
  - intros ->. simpl. lia.
  - intros Hs. specialize (IH Hs). case_match; lia.
Qed.

Lemma join_lines (lines : list string) (final : string) :
  (∀ line, line ∈ lines ++ [final] → count LF line = 0%Z) →
  final ≠ "" →
  count LF (join newline (lines ++ [final])) = Z.of_nat (length lines)
  ∧ endswith LF (join newline (lines ++ [final])) = false
  ∧ join newline (lines ++ [final]) ≠ "".
Proof.
  intros Hlines Hfinal. induction lines as [|line lines IH].
  - simpl. split; [apply Hlines, list_elem_of_here |]. split; [| done].
    destruct (endswith LF final) eqn:Hends; [| done].
    apply endswith_count in Hends.
    rewrite (Hlines final) in Hends by apply list_elem_of_here. lia.
  - destruct IH as (Hcount & Hends & Hjoin).
    { intros l Hl. apply Hlines. by apply list_elem_of_further. }
    change (join newline ((line :: lines) ++ [final]))
      with (join newline (line :: (lines ++ [final]))).
    destruct (lines ++ [final]) as [|l rest] eqn:Hrest;
      [by destruct lines |].
    change (join newline (line :: l :: rest))
      with (line +:+ newline +:+ join newline (l :: rest)).
    split; [| split].
    + rewrite !count_append, Hcount.
      rewrite (Hlines line) by apply list_elem_of_here.
      simpl length. simpl count. lia.
    + rewrite !endswith_append; [done | done |].
      by destruct (join newline (l :: rest)).
    + by destruct line.
Qed.

(** X27: [write_file] reports the number of lines of the text: for a
    text of one or more lines that hold no line feed, the last one not
    empty, joined by line feeds, the count is the number of lines, and a
    line feed after the last line does not change it; the count is zero
    for the empty text only. *)
Theorem line_count_counts_lines (lines : list string) (final : string) :
  (∀ line, line ∈ lines ++ [final] → count LF line = 0%Z) →
  final ≠ "" →
  let content := join newline (lines ++ [final]) in
  line_count content = Z.of_nat (length (lines ++ [final]))
  ∧ line_count (content +:+ newline) = Z.of_nat (length (lines ++ [final]))
  ∧ (∀ text, line_count text = 0%Z ↔ text = "").
Proof.
  intros Hlines Hfinal content.
  destruct (join_lines lines final Hlines Hfinal) as (Hcount & Hends & Hjoin).
  fold content in Hcount, Hends, Hjoin.
  rewrite length_app. simpl length. split; [| split].
  - unfold line_count. rewrite Hcount, Hends.
    destruct content; [done |]. simpl. lia.
  - unfold line_count. rewrite count_append, Hcount.
    rewrite endswith_append by done.
    destruct content; [done |]. simpl. lia.
  - intros text. split; [| by intros ->].
    unfold line_count. destruct text as [|c text]; [done |].
    pose proof (count_nonneg LF (String c text)) as Hnonneg.
    destruct (endswith LF (String c text)) eqn:Htext.
    + apply endswith_count in Htext. simpl truthy. simpl andb. lia.
    + simpl truthy. simpl andb. lia.
Qed.

(** X28: the size shown behind a file is its size in bytes, kibibytes
    or mebibytes, rounded down; the unit changes at 1024 of the smaller
    one, so that the number shown stays below 1024 for every file below
    one gibibyte, and is at least one from one kibibyte on. *)
Theorem size_suffix_rounds_down (size_bytes : Z) :
  (0 ≤ size_bytes)%Z →
  ∃ (shown unit : Z) (name : string),
    size_suffix size_bytes = " (" +:+ pretty shown +:+ name +:+ ")"
    ∧ (unit, name) ∈ [(1, "B"); (1024, "KB"); (1024 * 1024, "MB")]%Z
    ∧ (shown * unit ≤ size_bytes < (shown + 1) * unit)%Z
    ∧ (size_bytes < 1024 * 1024 * 1024 → shown < 1024)%Z
    ∧ (1024 ≤ size_bytes → 1 ≤ shown)%Z.
Proof.
  intros Hsize. unfold size_suffix.
  destruct (Z.ltb_spec size_bytes 1024) as [Hb|Hb];
    [| destruct (Z.ltb_spec size_bytes (1024 * 1024)) as [Hk|Hk]].
  - exists size_bytes, 1%Z, "B". split; [done |].
    split; [apply list_elem_of_here |]. lia.
  - exists (size_bytes / 1024)%Z, 1024%Z, "KB". split; [done |].
    split; [apply list_elem_of_further, list_elem_of_here |].
    pose proof (Z.div_mod size_bytes 1024 ltac:(lia)) as Hdiv.
    pose proof (Z.mod_pos_bound size_bytes 1024 ltac:(lia)) as Hmod.
    lia.
  - exists (size_bytes / (1024 * 1024))%Z, (1024 * 1024)%Z, "MB".
    split; [done |].
    split; [do 2 apply list_elem_of_further; apply list_elem_of_here |].
    pose proof (Z.div_mod size_bytes (1024 * 1024) ltac:(lia)) as Hdiv.
    pose proof (Z.mod_pos_bound size_bytes (1024 * 1024) ltac:(lia)) as Hmod.
    lia.
Qed.

End FileProperties.

(** ** Properties of the port scan *)

Section ScanProperties.
Import Str Scan.

Variable strip : string → string.
Variable int_ : string → result Z.
Variable gethostbyname : string → result string.
Variable connect : string → Z → Z → result Z.
Variable getservbyport : Z → result string.

Abbreviation port_numbers := (port_numbers strip int_).
Abbreviation scan := (scan connect getservbyport).
Abbreviation port_scan :=
  (port_scan strip int_ gethostbyname connect getservbyport).

(** The loop tries every port once, in order, and files each under the
    open or under the closed ports. *)
Lemma scan_every_port (ip : string) (timeout : Z) (port_list : list Z)
    (open_ports : list string) (closed_ports : list Z) :
  ∃ open_ports' closed_ports',
    scan ip timeout port_list open_ports closed_ports
    = (Returned (open_ports', closed_ports'),
       (λ port, Connection ip port timeout) <$> port_list)
    ∧ (length open_ports' + length closed_ports'
       = length open_ports + length closed_ports + length port_list)%nat.
Proof.
  revert open_ports closed_ports.
  induction port_list as [|port port_list IH]; intros open_ports closed_ports.
  - exists open_ports, closed_ports. simpl. split; [done | lia].
  - assert (Hstep : ∃ open_ports1 closed_ports1,
              (length open_ports1 + length closed_ports1
               = S (length open_ports + length closed_ports))%nat
              ∧ Scan.scan connect getservbyport ip timeout (port :: port_list)
                  open_ports closed_ports
                = (let '(r, made) :=
                     scan ip timeout port_list open_ports1 closed_ports1 in
                   (r, Connection ip port timeout :: made))).
    { simpl. destruct (connect ip port timeout) as [code|e].
      - destruct (code =? 0)%Z.
        + destruct (getservbyport port) as [service|e].
          * eexists _, _. split; [| reflexivity].
            rewrite length_app. simpl. lia.
          * destruct (isinstance e [OSError]).
            -- eexists _, _. split; [| reflexivity].
               rewrite length_app. simpl. lia.
            -- rewrite isinstance_Exception.
               eexists _, _. split; [| reflexivity].
               rewrite length_app. simpl. lia.
        + eexists _, _. split; [| reflexivity].
          rewrite length_app. simpl. lia.
      - rewrite isinstance_Exception.
        eexists _, _. split; [| reflexivity].
        rewrite length_app. simpl. lia. }
    destruct Hstep as (open_ports1 & closed_ports1 & Hlen & ->).
    destruct (IH open_ports1 closed_ports1)
      as (open_ports' & closed_ports' & -> & Hlen').
    exists open_ports', closed_ports'. split; [done |]. simpl. lia.
Qed.

(** X29: a port scan makes at most fifty attempts to connect, whatever
    the list of ports and the network are; every attempt goes to the
    address that the target resolved to, with the timeout of the call;
    and the scan answers with a string in every case. *)
Theorem port_scan_connects_at_most_50 (target ports : string) (timeout : Z) :
  let '(r, made) := port_scan target ports timeout in
  (∃ answer, r = Returned answer)
  ∧ (length made ≤ 50)%nat
  ∧ (∀ c, c ∈ made →
       gethostbyname target = Returned (conn_ip c)
       ∧ conn_timeout c = timeout).
Proof.
  assert (Hnone : ∀ answer : string,
            (∃ answer', Returned answer = Returned answer')
            ∧ (length ([] : list connection) ≤ 50)%nat
            ∧ (∀ c, c ∈ ([] : list connection) →
                 gethostbyname target = Returned (conn_ip c)
                 ∧ conn_timeout c = timeout)).
  { intros answer. split; [by eexists |]. split; [simpl; lia |].
    by intros c Hc%elem_of_nil. }
  unfold Scan.port_scan.
  destruct (negb (truthy ports)
            : bool) eqn:Hgiven.
  all: match goal with
       | |- context [port_numbers ?pieces] =>
           destruct (port_numbers pieces) as [port_list|e];
           [| destruct (isinstance e [ValueError]);
              [apply Hnone | rewrite isinstance_Exception; apply Hnone]]
       | |- _ => set (port_list := common_ports)
       end.
  all: destruct (50 <? length port_list)%nat eqn:Hmany; [apply Hnone |];
    apply Nat.ltb_ge in Hmany;
    (destruct (gethostbyname target) as [ip|e] eqn:Hresolved;
     [| destruct (isinstance e [gaierror]);
        [apply Hnone | rewrite isinstance_Exception; apply Hnone]]);
    destruct (scan_every_port ip timeout port_list [] [])
      as (open_ports & closed_ports & -> & _);
    (split; [by eexists |]);
    (split; [by rewrite length_fmap |]);
    intros c (port & -> & _)%list_elem_of_fmap; done.
Qed.

(** X30: a scan that starts accounts for every port: when the list of
    ports is read (or left to the common ports), holds no more than fifty
    and the target resolves, every port of the list is tried once, in the
    order of the list, and is reported either on a line of the open ports
    or in the number of the closed ones. *)
Theorem port_scan_accounts_for_every_port (target ports : string)
    (timeout : Z) (port_list : list Z) (ip : string) :
  (if truthy ports then port_numbers (split comma ports)
   else Returned common_ports) = Returned port_list →
  (length port_list ≤ 50)%nat →
  gethostbyname target = Returned ip →
  ∃ (open_ports : list string) (closed_ports : list Z),
    port_scan target ports timeout
    = (Returned
         (join newline
            ((["Port scan results for " +:+ target +:+ " (" +:+ ip +:+ "):"
                 +:+ newline]
              ++ match open_ports with
                 | _ :: _ => "**Open Ports:**" :: open_ports
                 | [] => ["No open ports found."]
                 end)
             ++ match closed_ports with
                | _ :: _ =>
                    [newline +:+ "**Closed/Filtered:** "
                       +:+ pretty (length closed_ports) +:+ " ports"]
                | [] => []
                end)),
       (λ port, Connection ip port timeout) <$> port_list)
    ∧ (length open_ports + length closed_ports = length port_list)%nat.
Proof.
  intros Hports Hmany Hresolved. unfold Scan.port_scan.
  assert (Hlist : (if negb (truthy ports) then Returned (inl common_ports)
                   else
                     match port_numbers (split comma ports) with
                     | Returned port_list => Returned (inl port_list)
                     | Raised e =>
                         if isinstance e [ValueError] then
                           Returned (inr "Error: Invalid port format. Use comma-separated numbers (e.g., '22,80,443').")
                         else Raised e
                     end)
                  = (Returned (inl port_list)
                     : result (list Z + string))).
  { destruct (truthy ports); simpl; [by rewrite Hports | by injection Hports as ->]. }
  rewrite Hlist. rewrite (proj2 (Nat.ltb_ge 50 (length port_list))) by done.
  rewrite Hresolved.
  destruct (scan_every_port ip timeout port_list [] [])
    as (open_ports & closed_ports & -> & Hlen).
  exists open_ports, closed_ports. split; [| exact Hlen].
  by destruct open_ports, closed_ports;
    rewrite ?app_nil_r, <- ?app_assoc.
Qed.

End ScanProperties.

Section FixtureProperties.
Import Tools Str Listing Bodies Scan.

Lemma register_keeps_the_place_witness :
  ("ls" ∈ (foldl run [] (take 2 Fixtures.defined_twice)).*1)
  ∧ list_tools Fixtures.shelf
    = <[0%nat := Fixtures.ls_tool]>
        (list_tools (foldl run [] (take 2 Fixtures.defined_twice))).
Proof.
  split; [apply list_elem_of_here |].
  destruct (register_keeps_the_place
              (foldl run [] (take 2 Fixtures.defined_twice))
              "ls" "List files again." None Samples.ls_v2)
    as [_ Hplace].
  destruct (Hplace (list_elem_of_here _ _)) as [_ (i & Hi & Hlist)].
  destruct i as [|[|i]]; [exact Hlist | discriminate Hi | discriminate Hi].
Defined.

Lemma descriptions_show_every_tool_witness :
  Fixtures.ls_tool ∈ list_tools Fixtures.shelf
  ∧ contains "**ls**: List files again."
      (get_tool_descriptions Fixtures.shelf) = true.
Proof.
  assert (Hin : Fixtures.ls_tool ∈ list_tools Fixtures.shelf)
    by apply list_elem_of_here.
  split; [exact Hin |].
  exact (proj1 (proj2 (descriptions_show_every_tool _ _ Hin))).
Defined.

Lemma run_command_shows_the_process_witness :
  ∃ answer,
    run_command string id Fixtures.is_absolute Fixtures.joinpath
      (Returned Fixtures.config) Fixtures.subprocess_run "make" None 30
    = Returned answer
    ∧ contains "building" answer = true
    ∧ contains "" answer = true
    ∧ ((2 ≠ 0)%Z → ∃ before, answer = before +:+ "Exit code: " +:+ "2").
Proof.
  exact (run_command_shows_the_process string id Fixtures.is_absolute
           Fixtures.joinpath (Returned Fixtures.config)
           Fixtures.subprocess_run "make" None 30 Fixtures.config
           Fixtures.failing_process eq_refl eq_refl).
Defined.




Lemma line_count_counts_lines_witness :
  line_count ("alpha" +:+ newline +:+ "beta") = 2%Z
  ∧ line_count ("alpha" +:+ newline +:+ "beta" +:+ newline) = 2%Z.
Proof.
  assert (Hlines : ∀ line, line ∈ ["alpha"] ++ ["beta"] → count LF line = 0%Z).
  { intros line Hin.
    apply elem_of_cons in Hin as [-> | Hin]; [reflexivity |].
    apply elem_of_cons in Hin as [-> | Hin]; [reflexivity |].
    by apply elem_of_nil in Hin. }
  destruct (line_count_counts_lines ["alpha"] "beta" Hlines ltac:(discriminate))
    as (Hcount & Hterminated & _).
  split; [exact Hcount | exact Hterminated].
Defined.

Lemma size_suffix_rounds_down_witness :
  ∃ (shown unit : Z) (name : string),
    size_suffix 2500 = " (" +:+ pretty shown +:+ name +:+ ")"
    ∧ (unit, name) ∈ [(1, "B"); (1024, "KB"); (1024 * 1024, "MB")]%Z
    ∧ (shown * unit ≤ 2500 < (shown + 1) * unit)%Z
    ∧ (2500 < 1024 * 1024 * 1024 → shown < 1024)%Z
    ∧ (1024 ≤ 2500 → 1 ≤ shown)%Z.
Proof.
  apply (size_suffix_rounds_down 2500). lia.
Defined.

Lemma port_scan_accounts_for_every_port_witness :
  ∃ (open_ports : list string) (closed_ports : list Z),
    (port_scan Fixtures.rstrip Fixtures.int_ Fixtures.gethostbyname
       Fixtures.connect Fixtures.getservbyport "scanme.example" "22,80" 2).2
    = [Connection "192.0.2.7" 22 2; Connection "192.0.2.7" 80 2]
    ∧ (length open_ports + length closed_ports = 2)%nat.
Proof.
  destruct (port_scan_accounts_for_every_port Fixtures.rstrip Fixtures.int_
              Fixtures.gethostbyname Fixtures.connect Fixtures.getservbyport
              "scanme.example" "22,80" 2 [22; 80]%Z "192.0.2.7"
              eq_refl ltac:(simpl; lia) eq_refl)
    as (open_ports & closed_ports & Hscan & Hlen).
  exists open_ports, closed_ports. split; [| exact Hlen].
  by rewrite Hscan.
Defined.

End FixtureProperties.
